(** * Voice embedding worker: matching pipeline

    A shallow embedding of [scripts/voice-embedding-worker.py]:
    [create_speaker_embeddings], [compare_speakers] and [find_best_matches],
    together with the properties of the voice-identity matching pipeline.

    Conventions of the embedding.
    - A Python [dict] is an association list in insertion order
      ([dict_set] overwrites in place or appends, as CPython does).
    - A Python exception that leaves a function is [Raise]; a normal
      return is [Ok].
    - Millisecond time stamps are Python integers, hence [Z].
    - A Python [float] is an IEEE 754 binary64 number, hence [PrimFloat.float].
      The numeric code is written over an arithmetic interface [Arith], so
      that it also covers the encoder's own number format; binary64 is its
      instance for Python floats.
    - The value of [np.dot] is taken from the numpy build at hand
      ([DotKernel]): the order of its additions, and whether a product and
      an addition are rounded together, are not fixed by the source. *)

From Stdlib Require Import ZArith String Ascii Bool List Lia.
From Stdlib Require Import Permutation Sorted.
From Stdlib Require Import Floats Uint63.
Import ListNotations.

Local Open Scope string_scope.
Local Open Scope list_scope.

(** ** Exceptions *)

Inductive exn : Type :=
| ValueError (msg : string).

Inductive result (A : Type) : Type :=
| Ok (a : A)
| Raise (e : exn).

Arguments Ok {A} a.
Arguments Raise {A} e.

Definition bind {A B : Type} (c : result A) (k : A -> result B) : result B :=
  match c with
  | Ok a => k a
  | Raise e => Raise e
  end.

Notation "x <- c ;; k" := (bind c (fun x => k))
  (at level 61, c at next level, right associativity).

(** A [for] loop whose body may raise: the state is threaded through the
    items in order and the first exception ends the loop. *)
Fixpoint for_each {A S : Type} (items : list A) (body : S -> A -> result S)
    (s : S) : result S :=
  match items with
  | [] => Ok s
  | x :: rest => s' <- body s x ;; for_each rest body s'
  end.

(** ** Python dictionaries *)

Definition dict (V : Type) : Type := list (string * V).

Fixpoint dict_get {V : Type} (d : dict V) (k : string) : option V :=
  match d with
  | [] => None
  | (k', v) :: d' => if String.eqb k k' then Some v else dict_get d' k
  end.

(** [d[k] = v]: an existing key keeps its position, a new key goes last. *)
Fixpoint dict_set {V : Type} (d : dict V) (k : string) (v : V) : dict V :=
  match d with
  | [] => [(k, v)]
  | (k', v') :: d' =>
      if String.eqb k k' then (k', v) :: d' else (k', v') :: dict_set d' k v
  end.

Definition dict_keys {V : Type} (d : dict V) : list string := map fst d.

Definition dict_mem {V : Type} (d : dict V) (k : string) : bool :=
  match dict_get d k with
  | Some _ => true
  | None => false
  end.

(** Keys of a dictionary are pairwise distinct. *)
Definition dict_wf {V : Type} (d : dict V) : Prop := NoDup (dict_keys d).

(** ** IdentityMatcher: [find_best_matches] *)

Record Match : Type := mkMatch {
  character : string;
  confidence : float;
  method : string
}.

(** [max(items, key=lambda x: x[1])] after the first item: CPython keeps the
    running maximum and replaces it only when the new key is strictly
    greater. *)
Fixpoint max_from (best : string * float) (rest : list (string * float))
  : string * float :=
  match rest with
  | [] => best
  | x :: rest' =>
      if (snd best <? snd x)%float then max_from x rest'
      else max_from best rest'
  end.

Definition py_max_score (items : list (string * float))
  : result (string * float) :=
  match items with
  | [] => Raise (ValueError "max() iterable argument is empty")
  | x :: rest => Ok (max_from x rest)
  end.

(** One iteration of [for speaker, scores in similarities.items()]. *)
Definition match_step (threshold : float) (matches : dict Match)
    (item : string * dict float) : result (dict Match) :=
  let '(speaker, scores) := item in
  best_match <- py_max_score scores ;;
  if (threshold <=? snd best_match)%float
  then Ok (dict_set matches speaker
             (mkMatch (fst best_match) (snd best_match) "voice_embedding"))
  else Ok matches.

Definition find_best_matches (similarities : dict (dict float))
    (threshold : float) : result (dict Match) :=
  for_each similarities (match_step threshold) [].

Definition default_threshold : float := 0.75%float.

(** ** Arithmetic of the numeric kernels *)

Class Arith (F : Type) : Type := {
  fzero : F;
  fadd : F -> F -> F;
  fmul : F -> F -> F;
  fdiv : F -> F -> F;
  fopp : F -> F;
  fsqrt : F -> F;
  of_count : nat -> F
}.

(** IEEE 754 binary64, the arithmetic of Python floats. *)
#[export] Instance float_arith : Arith float := {|
  fzero := 0%float;
  fadd := PrimFloat.add;
  fmul := PrimFloat.mul;
  fdiv := PrimFloat.div;
  fopp := PrimFloat.opp;
  fsqrt := PrimFloat.sqrt;
  of_count := fun n => PrimFloat.of_uint63 (Uint63.of_Z (Z.of_nat n))
|}.

(** The value of [np.dot] on two one-dimensional arrays of one length.
    numpy hands the loop to its dot kernel (BLAS where available), whose
    summation order and use of fused multiply-add depend on the build, so
    the value is a parameter of the model and not a fixed fold. *)
Class DotKernel (F : Type) : Type := {
  dot_value : list F -> list F -> F
}.

Section Kernels.
Context {F : Type} {AF : Arith F}.

(** Elementwise combination of two vectors of one length. *)
Fixpoint zip_with (f : F -> F -> F) (a b : list F) : list F :=
  match a, b with
  | x :: a', y :: b' => f x y :: zip_with f a' b'
  | _, _ => []
  end.

Definition same_length (v : list F) (w : list F) : bool :=
  Nat.eqb (length w) (length v).

(** [np.mean(embeddings, axis=0)] on a non-empty list [v :: rest] of
    vectors: numpy refuses a ragged list, otherwise adds the rows in order
    and divides each sum by the number of rows. *)
Definition mean_rows (v : list F) (rest : list (list F)) : list F :=
  map (fun s => fdiv s (of_count (S (length rest))))
    (fold_left (zip_with fadd) rest v).

Definition np_mean_axis0 (v : list F) (rest : list (list F))
  : result (list F) :=
  if forallb (same_length v) rest then Ok (mean_rows v rest)
  else Raise (ValueError "inhomogeneous shape").

Context {DK : DotKernel F}.

(** [np.dot] on two one-dimensional arrays: the shapes are checked, then
    the kernel gives the value. *)
Definition np_dot (a b : list F) : result F :=
  if Nat.eqb (length a) (length b) then Ok (dot_value a b)
  else Raise (ValueError "shapes not aligned").

(** [numpy.linalg.norm] of a one-dimensional array: [sqrt(x.dot(x))]. *)
Definition norm (a : list F) : F := fsqrt (dot_value a a).

Definition cosine_similarity (emb1 emb2 : list F) : result F :=
  d <- np_dot emb1 emb2 ;;
  Ok (fdiv d (fmul (norm emb1) (norm emb2))).

(** ** SimilarityScorer: [compare_speakers] *)

(** [similarities[speaker1][speaker2] = similarity]; the row exists, as
    [compare_speakers] creates it before its inner loop. *)
Definition set_score (similarities : dict (dict F))
    (speaker1 speaker2 : string) (similarity : F) : dict (dict F) :=
  match dict_get similarities speaker1 with
  | Some row => dict_set similarities speaker1 (dict_set row speaker2 similarity)
  | None => similarities
  end.

Definition compare_inner (speaker1 : string) (emb1 : list F)
    (similarities : dict (dict F)) (item2 : string * list F)
  : result (dict (dict F)) :=
  let '(speaker2, emb2) := item2 in
  similarity <- cosine_similarity emb1 emb2 ;;
  Ok (set_score similarities speaker1 speaker2 similarity).

Definition compare_outer (embeddings2 : dict (list F))
    (similarities : dict (dict F)) (item1 : string * list F)
  : result (dict (dict F)) :=
  let '(speaker1, emb1) := item1 in
  for_each embeddings2 (compare_inner speaker1 emb1)
    (dict_set similarities speaker1 []).

Definition compare_speakers (embeddings1 embeddings2 : dict (list F))
  : result (dict (dict F)) :=
  for_each embeddings1 (compare_outer embeddings2) [].

End Kernels.

(** ** SegmentSelector *)

(** One entry of the diarization word list.  The source reads every field
    with [dict.get] and a default, so each key may be absent; a key that is
    present holds a string (labels, texts) or an integer (times). *)
Record Word : Type := mkWord {
  w_speaker : option string;
  w_startMs : option Z;
  w_start : option Z;
  w_endMs : option Z;
  w_end : option Z;
  w_text : option string;
  w_word : option string
}.

(** The dictionaries [{'start': .., 'end': .., 'text': ..}] of the source. *)
Record Segment : Type := mkSegment {
  seg_start : Z;
  seg_end : Z;
  seg_text : string
}.

(** [d.get(key, default)]. *)
Definition py_get {A : Type} (field : option A) (default : A) : A :=
  match field with
  | Some a => a
  | None => default
  end.

Definition UNKNOWN : string := "UNKNOWN".

Definition word_segment (word : Word) : Segment :=
  {| seg_start := py_get (w_startMs word) (py_get (w_start word) 0%Z);
     seg_end := py_get (w_endMs word) (py_get (w_end word) 0%Z);
     seg_text := py_get (w_text word) (py_get (w_word word) "") |}.

(** Body of [for word in diarization_words]. *)
Definition group_step (speaker_segments : dict (list Segment)) (word : Word)
  : dict (list Segment) :=
  let speaker := py_get (w_speaker word) UNKNOWN in
  if String.eqb speaker UNKNOWN then speaker_segments
  else
    let speaker_segments :=
      if dict_mem speaker_segments speaker then speaker_segments
      else dict_set speaker_segments speaker [] in
    dict_set speaker_segments speaker
      (py_get (dict_get speaker_segments speaker) [] ++ [word_segment word]).

Definition group_words (diarization_words : list Word)
  : dict (list Segment) :=
  fold_left group_step diarization_words [].

(** [sorted(.., key=lambda x: x['start'])]: a stable sort. *)
Fixpoint insert_by_start (x : Segment) (l : list Segment) : list Segment :=
  match l with
  | [] => [x]
  | y :: l' =>
      if (seg_start x <=? seg_start y)%Z then x :: y :: l'
      else y :: insert_by_start x l'
  end.

Definition sorted_by_start (l : list Segment) : list Segment :=
  fold_right insert_by_start [] l.

Definition gap_merge_threshold_ms : Z := 500.
Definition min_utterance_duration_ms : Z := 500.

Definition long_enough (current : Segment) : bool :=
  (seg_end current - seg_start current >? min_utterance_duration_ms)%Z.

(** Body of the merge loop; the state is [(merged_segments, current)]. *)
Definition merge_step (st : list Segment * option Segment) (seg : Segment)
  : list Segment * option Segment :=
  let '(merged_segments, current) := st in
  match current with
  | None => (merged_segments, Some seg)
  | Some cur =>
      if (seg_start seg - seg_end cur <? gap_merge_threshold_ms)%Z
      then (merged_segments,
            Some {| seg_start := seg_start cur;
                    seg_end := seg_end seg;
                    seg_text :=
                      String.append (seg_text cur)
                        (String.append " " (seg_text seg)) |})
      else (if long_enough cur then merged_segments ++ [cur]
            else merged_segments,
            Some seg)
  end.

Definition merge_segments (sample_segments : list Segment) : list Segment :=
  let '(merged_segments, current) :=
    fold_left merge_step (sorted_by_start sample_segments) ([], None) in
  match current with
  | Some cur => if long_enough cur then merged_segments ++ [cur]
                else merged_segments
  | None => merged_segments
  end.

Definition max_sample_segments : nat := 10.
Definition max_merged_segments : nat := 5.

(** ** FingerprintAggregator *)

(** What the external collaborators do with one utterance:
    [extract_audio_segment] returns [False], or [preprocess_wav] yields an
    empty waveform, or [preprocess_wav]/[embed_utterance] raises, or the
    encoder returns a vector. *)
Inductive Outcome (F : Type) : Type :=
| ExtractFailed
| WavEmpty
| EncodeRaised
| Embedded (embedding : list F).

Arguments ExtractFailed {F}.
Arguments WavEmpty {F}.
Arguments EncodeRaised {F}.
Arguments Embedded {F} embedding.

(** The media file and the encoder, seen from the pipeline: the outcome of
    extracting and encoding utterance number [i] of a speaker.  The audio
    file of utterance [i] of [speaker_id] has a name of its own, so no call
    sees the file of another.  [ffmpeg] and the encoder model are taken to
    be installed: without them the run ends before any fingerprint. *)
Definition World (F : Type) : Type := string -> nat -> Segment -> Outcome F.

(** What a run shows to its environment: the lines it prints and the calls
    of the audio extractor. *)
Inductive Event : Type :=
| EvCreating
| EvFound (speakers : nat)
| EvNoValidSegments (speaker_id : string)
| EvExtract (speaker_id : string) (i : nat) (start_ms end_ms : Z)
| EvProcessingError (speaker_id : string) (i : nat)
| EvCreated (speaker_id : string) (count : nat)
| EvFailed (speaker_id : string).

Fixpoint enumerate_from {A : Type} (i : nat) (l : list A) : list (nat * A) :=
  match l with
  | [] => []
  | x :: l' => (i, x) :: enumerate_from (S i) l'
  end.

Definition enumerate {A : Type} (l : list A) : list (nat * A) :=
  enumerate_from 0 l.

Section Aggregator.
Context {F : Type} {AF : Arith F}.
Variable world : World F.

(** Body of [for i, seg in enumerate(merged_segments[:5])]; the state is
    [(embeddings, trace)]. *)
Definition embed_step (speaker_id : string)
    (st : list (list F) * list Event) (item : nat * Segment)
  : list (list F) * list Event :=
  let '(embeddings, trace) := st in
  let '(i, seg) := item in
  let trace := trace ++ [EvExtract speaker_id i (seg_start seg) (seg_end seg)] in
  match world speaker_id i seg with
  | ExtractFailed => (embeddings, trace)
  | WavEmpty => (embeddings, trace)
  | EncodeRaised => (embeddings, trace ++ [EvProcessingError speaker_id i])
  | Embedded embedding => (embeddings ++ [embedding], trace)
  end.

(** Body of [for speaker_id, segments in speaker_segments.items()]; the
    state is [(speaker_embeddings, trace)]. *)
Definition speaker_step (st : dict (list F) * list Event)
    (item : string * list Segment) : result (dict (list F) * list Event) :=
  let '(speaker_embeddings, trace) := st in
  let '(speaker_id, segments) := item in
  let sample_segments := firstn max_sample_segments segments in
  let merged_segments := merge_segments sample_segments in
  match merged_segments with
  | [] => Ok (speaker_embeddings, trace ++ [EvNoValidSegments speaker_id])
  | _ :: _ =>
      let '(embeddings, trace) :=
        fold_left (embed_step speaker_id)
          (enumerate (firstn max_merged_segments merged_segments))
          ([], trace) in
      match embeddings with
      | [] => Ok (speaker_embeddings, trace ++ [EvFailed speaker_id])
      | v :: rest =>
          avg_embedding <- np_mean_axis0 v rest ;;
          Ok (dict_set speaker_embeddings speaker_id avg_embedding,
              trace ++ [EvCreated speaker_id (length embeddings)])
      end
  end.

Definition create_speaker_embeddings (diarization_words : list Word)
  : result (dict (list F) * list Event) :=
  let speaker_segments := group_words diarization_words in
  for_each speaker_segments speaker_step
    ([], [EvCreating; EvFound (length speaker_segments)]).

End Aggregator.

(** ** The entry point: [main] *)

(** The dictionary that [main] prints as JSON; the keys [similarities] and
    [matches] are set only when reference voices were compared. *)
Record WorkerResult : Type := mkWorkerResult {
  r_embeddings : dict (list float);
  r_speaker_count : nat;
  r_similarities : option (dict (dict float));
  r_matches : option (dict Match)
}.

(** How a run of [main] ends: [sys.exit], an exception that nothing
    catches, or the printed result. *)
Inductive MainError : Type :=
| CannotRead (path : string)
| Uncaught (e : exn).

Inductive Exit : Type :=
| Exited (status : nat)
| Crashed (e : MainError)
| Printed (r : WorkerResult).

(** What [main] finds under the path of the reference voices. *)
Inductive ReferenceFile : Type :=
| Missing
| Unreadable
| Loaded (reference_embeddings : dict (list float)).

(** The surroundings of [main]: the media file and encoder behind each
    video path, the word list that [json.load] returns for a path (if it can
    be read), and the file of reference voices.  [tolist] is the conversion
    of the encoder's numbers to Python floats. *)
Record Environment (F : Type) : Type := mkEnvironment {
  worlds : string -> World F;
  read_words : string -> option (list Word);
  read_reference : string -> ReferenceFile;
  tolist : F -> float
}.

Arguments worlds {F} e.
Arguments read_words {F} e.
Arguments read_reference {F} e.
Arguments tolist {F} e.

(** [compare_speakers] followed by [find_best_matches] with its default
    threshold, as in [main]. *)
Definition compare_and_match {DK : DotKernel float}
    (speaker_embeddings reference_embeddings : dict (list float))
  : result (dict (dict float) * dict Match) :=
  similarities <- compare_speakers speaker_embeddings reference_embeddings ;;
  matches <- find_best_matches similarities default_threshold ;;
  Ok (similarities, matches).

(** [main], from [sys.argv] to the printed result; the lines it writes to
    the console besides the result are left out.  The means come back from
    [create_speaker_embeddings] in the encoder's arithmetic; [tolist], which
    the source applies to each mean before it stores it, is applied here. *)
Definition main {F : Type} {AF : Arith F} {DK : DotKernel float}
    (env : Environment F) (argv : list string) : Exit :=
  match argv with
  | _ :: video_path :: diarization_json :: rest =>
      let reference_json :=
        match rest with
        | r :: _ => Some r
        | [] => None
        end in
      match read_words env diarization_json with
      | None => Crashed (CannotRead diarization_json)
      | Some diarization_words =>
          match create_speaker_embeddings (worlds env video_path)
                  diarization_words with
          | Raise e => Crashed (Uncaught e)
          | Ok (embs, _) =>
              let speaker_embeddings :=
                map (fun kv => (fst kv, map (tolist env) (snd kv))) embs in
              let printed :=
                mkWorkerResult speaker_embeddings (length speaker_embeddings)
                  None None in
              match reference_json with
              | None => Printed printed
              | Some "" => Printed printed
              | Some path =>
                  match read_reference env path with
                  | Missing => Printed printed
                  | Unreadable => Crashed (CannotRead path)
                  | Loaded reference_embeddings =>
                      match compare_and_match speaker_embeddings
                              reference_embeddings with
                      | Raise e => Crashed (Uncaught e)
                      | Ok (similarities, matches) =>
                          Printed
                            (mkWorkerResult speaker_embeddings
                               (length speaker_embeddings)
                               (Some similarities) (Some matches))
                      end
                  end
              end
          end
      end
  | _ => Exited 1
  end.

(** ** Predicates used to state the properties *)

Definition not_nan (x : float) : Prop := PrimFloat.is_nan x = false.

(** Every score of the row is a number. *)
Definition scores_ok (scores : dict float) : Prop :=
  Forall (fun kv => not_nan (snd kv)) scores.

(** A similarity table as [compare_speakers] builds it from a non-empty
    reference set and fingerprints of non-zero norm: distinct candidates,
    no empty row, no NaN. *)
Definition table_ok (similarities : dict (dict float)) : Prop :=
  dict_wf similarities /\
  Forall (fun kr => snd kr <> [] /\ scores_ok (snd kr)) similarities.

(** [m] is the maximum of the scores of the row. *)
Definition row_max (scores : dict float) (m : float) : Prop :=
  (exists k, In (k, m) scores) /\
  Forall (fun kv => (snd kv <=? m)%float = true) scores.

(** The tie-break of the spec: [best] has the maximum score and no reference
    with the same score comes before it in lexicographic order. *)
Definition lex_smallest_max (scores : dict float) (best : string) : Prop :=
  exists m, In (best, m) scores /\ row_max scores m /\
    forall k s, In (k, s) scores -> (s =? m)%float = true ->
                String.leb best k = true.

(** The tie-break of the source: [best] is the first entry of the row, in
    insertion order, that has the maximum score. *)
Definition first_max (scores : dict float) (best : string) (m : float)
  : Prop :=
  exists before after,
    scores = before ++ (best, m) :: after /\
    Forall (fun kv => (snd kv <? m)%float = true) before /\
    Forall (fun kv => (snd kv <=? m)%float = true) after.

(** What one row contributes to the result. *)
Definition row_match (threshold : float) (scores : dict float)
  : option Match :=
  match scores with
  | [] => None
  | x :: rest =>
      let best_match := max_from x rest in
      if (threshold <=? snd best_match)%float
      then Some (mkMatch (fst best_match) (snd best_match) "voice_embedding")
      else None
  end.

(** ** Views of the pipeline used to state the properties *)

(** The spans of [speaker] in the word list, in list order. *)
Definition speaker_of (word : Word) : string := py_get (w_speaker word) UNKNOWN.

Definition speaker_spans (diarization_words : list Word) (speaker : string)
  : list Segment :=
  map word_segment
    (filter (fun word => String.eqb (speaker_of word) speaker)
       diarization_words).

(** The utterances of a speaker that reach extraction and encoding. *)
Definition utterances (segments : list Segment) : list Segment :=
  firstn max_merged_segments
    (merge_segments (firstn max_sample_segments segments)).

Definition outcome_vectors {F : Type} (o : Outcome F) : list (list F) :=
  match o with
  | Embedded embedding => [embedding]
  | _ => []
  end.

Definition is_failure {F : Type} (o : Outcome F) : Prop :=
  outcome_vectors o = [].

(** The vectors of the utterances that were extracted and encoded, in
    order; an utterance that fails contributes nothing. *)
Definition collected {F : Type} (world : World F) (speaker_id : string)
    (items : list (nat * Segment)) : list (list F) :=
  flat_map (fun item => outcome_vectors (world speaker_id (fst item) (snd item)))
    items.

Definition extract_event (speaker_id : string) (item : nat * Segment)
  : Event :=
  EvExtract speaker_id (fst item) (seg_start (snd item)) (seg_end (snd item)).

Definition step_events {F : Type} (world : World F) (speaker_id : string)
    (item : nat * Segment) : list Event :=
  extract_event speaker_id item
  :: match world speaker_id (fst item) (snd item) with
     | EncodeRaised => [EvProcessingError speaker_id (fst item)]
     | _ => []
     end.

(** Sum of a non-empty sequence, added from the left as [np.mean] does. *)
Definition sum_from {F : Type} {AF : Arith F} (x : F) (l : list F) : F :=
  fold_left fadd l x.

(** Component [k] of the elementwise arithmetic mean of [v :: rest]. *)
Definition mean_at {F : Type} {AF : Arith F} (k : nat) (v : list F)
    (rest : list (list F)) : F :=
  fdiv (sum_from (nth k v fzero) (map (fun w => nth k w fzero) rest))
       (of_count (length (v :: rest))).

(** [fp] is the elementwise arithmetic mean of the vectors [vs], all of
    dimension [D]. *)
Definition is_mean {F : Type} {AF : Arith F} (D : nat) (vs : list (list F))
    (fp : list F) : Prop :=
  match vs with
  | [] => False
  | v :: rest =>
      length fp = D /\ forall k, k < D -> nth k fp fzero = mean_at k v rest
  end.

(** The encoder returns vectors of one dimension [D]. *)
Definition world_dim {F : Type} (world : World F) (D : nat) : Prop :=
  forall speaker_id i seg embedding,
    world speaker_id i seg = Embedded embedding -> length embedding = D.

(** The vectors collected for a speaker with spans [segments]. *)
Definition speaker_vectors {F : Type} (world : World F) (speaker_id : string)
    (segments : list Segment) : list (list F) :=
  collected world speaker_id (enumerate (utterances segments)).

(** The fingerprint made of the collected vectors, if there are any. *)
Definition fingerprint_of {F : Type} {AF : Arith F} (vectors : list (list F))
  : option (list F) :=
  match vectors with
  | [] => None
  | v :: rest => Some (mean_rows v rest)
  end.

(** What the run shows while it handles one speaker. *)
Definition speaker_events {F : Type} (world : World F) (speaker_id : string)
    (segments : list Segment) : list Event :=
  match merge_segments (firstn max_sample_segments segments) with
  | [] => [EvNoValidSegments speaker_id]
  | _ :: _ =>
      flat_map (step_events world speaker_id) (enumerate (utterances segments))
      ++ match speaker_vectors world speaker_id segments with
         | [] => [EvFailed speaker_id]
         | _ :: _ =>
             [EvCreated speaker_id
                (length (speaker_vectors world speaker_id segments))]
         end
  end.

Definition is_extract_of (speaker_id : string) (e : Event) : bool :=
  match e with
  | EvExtract s _ _ _ => String.eqb s speaker_id
  | _ => false
  end.

Definition is_created_of (speaker_id : string) (e : Event) : bool :=
  match e with
  | EvCreated s _ => String.eqb s speaker_id
  | _ => false
  end.

Definition start_le (a b : Segment) : Prop := (seg_start a <= seg_start b)%Z.

(** The cosine similarity [dot(a,b) / (||a|| * ||b||)]. *)
Definition cosine {F : Type} {AF : Arith F} {DK : DotKernel F}
    (a b : list F) : F :=
  fdiv (dot_value a b) (fmul (norm a) (norm b)).

(** The table with one row per candidate and one column per reference. *)
Definition expected_row {F : Type} {AF : Arith F} {DK : DotKernel F}
    (emb1 : list F) (embeddings2 : dict (list F)) : dict F :=
  map (fun kv => (fst kv, cosine emb1 (snd kv))) embeddings2.

Definition expected_table {F : Type} {AF : Arith F} {DK : DotKernel F}
    (embeddings1 embeddings2 : dict (list F)) : dict (dict F) :=
  map (fun kv => (fst kv, expected_row (snd kv) embeddings2)) embeddings1.

(** A fingerprint set whose vectors all have dimension [D]. *)
Definition all_dim {F : Type} (D : nat) (embeddings : dict (list F)) : Prop :=
  Forall (fun kv => length (snd kv) = D) embeddings.

(** ** Further views of the segment selection *)

(** [u'] starts at least the merge threshold after [u] ends. *)
Definition gap_before (u u' : Segment) : Prop :=
  (seg_start u' - seg_end u >= gap_merge_threshold_ms)%Z.

(** The start and the end of [u] are the start and the end of spans of
    [l]. *)
Definition endpoints_from (l : list Segment) (u : Segment) : Prop :=
  (exists a, In a l /\ seg_start u = seg_start a) /\
  (exists b, In b l /\ seg_end u = seg_end b).

(** What the merge loop keeps true: emitted utterances are long enough
    and separated, and the current utterance starts after all of them and
    before every span still to come. *)
Definition merge_inv (st : list Segment * option Segment)
    (rest : list Segment) : Prop :=
  let '(merged, current) := st in
  Forall (fun u => long_enough u = true) merged /\
  StronglySorted gap_before merged /\
  match current with
  | None => merged = []
  | Some c =>
      Forall (fun u => gap_before u c) merged /\
      Forall (fun s => start_le c s) rest
  end.

(** [v] starts less than the merge threshold after [u] ends. *)
Definition gap_small (u v : Segment) : Prop :=
  (seg_start v - seg_end u < gap_merge_threshold_ms)%Z.

Definition start_lt (a b : Segment) : Prop := (seg_start a < seg_start b)%Z.

(** The texts of [c :: l] joined by single spaces. *)
Definition joined_text (c : Segment) (l : list Segment) : string :=
  fold_left (fun t s => String.append t (String.append " " (seg_text s))) l
    (seg_text c).

(** The utterance from the start of [c] to the end of the last span of
    [c :: l]. *)
Definition chain_utterance (c : Segment) (l : list Segment) : Segment :=
  {| seg_start := seg_start c;
     seg_end := seg_end (last l c);
     seg_text := joined_text c l |}.

(** The word has a speaker label other than the sentinel. *)
Definition known (word : Word) : bool :=
  negb (String.eqb (speaker_of word) UNKNOWN).

(** The labels of a list without repetition, in order of first
    occurrence. *)
Definition first_seen (labels : list string) : list string :=
  fold_left
    (fun seen s => if existsb (String.eqb s) seen then seen else seen ++ [s])
    labels [].

(** ** Further views of the aggregation *)

(** Vectors were collected for [speaker_id] in the run on [words]. *)
Definition has_vectors {F : Type} (world : World F) (words : list Word)
    (speaker_id : string) : bool :=
  match speaker_vectors world speaker_id (speaker_spans words speaker_id) with
  | [] => false
  | _ :: _ => true
  end.

(** The fingerprints of the groups that have vectors, in group order. *)
Definition fingerprints {F : Type} {AF : Arith F} (world : World F)
    (groups : dict (list Segment)) : dict (list F) :=
  flat_map
    (fun it =>
       match fingerprint_of (speaker_vectors world (fst it) (snd it)) with
       | Some fp => [(fst it, fp)]
       | None => []
       end)
    groups.

(** ** Further views of the matching *)

(** The row has a best score that reaches the threshold. *)
Definition accepted (threshold : float) (kr : string * dict float) : bool :=
  match row_match threshold (snd kr) with
  | Some _ => true
  | None => false
  end.

(** The matches of the accepted rows, in table order. *)
Definition accepted_matches (threshold : float)
    (similarities : dict (dict float)) : dict Match :=
  flat_map
    (fun kr =>
       match row_match threshold (snd kr) with
       | Some m => [(fst kr, m)]
       | None => []
       end)
    similarities.

Definition is_error_of (speaker_id : string) (e : Event) : bool :=
  match e with
  | EvProcessingError s _ => String.eqb s speaker_id
  | _ => false
  end.

(** The error lines of the utterances whose encoding raises. *)
Definition encode_errors {F : Type} (world : World F) (speaker_id : string)
    (items : list (nat * Segment)) : list Event :=
  flat_map
    (fun item =>
       match world speaker_id (fst item) (snd item) with
       | EncodeRaised => [EvProcessingError speaker_id (fst item)]
       | _ => []
       end)
    items.

(** ** Sample inputs *)

Set Warnings "-inexact-float".

Definition tie_row_YX : dict float := [("Y", 0.8%float); ("X", 0.8%float)].

Definition tie_row_XY : dict float := [("X", 0.8%float); ("Y", 0.8%float)].

Definition spec_table : dict (dict float) :=
  [("A", [("X", 0.9%float); ("Y", 0.6%float)])].

Definition spec_spans (t1 t2 t3 : string) : list Segment :=
  [mkSegment 0 400 t1; mkSegment 450 900 t2; mkSegment 2000 2200 t3].

Definition timed_word (speaker : string) (start_ms end_ms : Z) (text : string)
  : Word :=
  mkWord (Some speaker) (Some start_ms) None (Some end_ms) None (Some text) None.

(** A word that carries nothing but its speaker label. *)
Definition bare_word (speaker : string) : Word :=
  mkWord (Some speaker) None None None None None None.

(** Speaker S1 has three utterances, [0,900), [2000,3000) and [5000,6000);
    one word has no speaker; speaker S2 has one span that is too short. *)
Definition sample_words : list Word :=
  [timed_word "S1" 0 400 "a"; timed_word "S1" 450 900 "b";
   timed_word "S1" 2000 3000 "c";
   mkWord None (Some 3000%Z) None (Some 4000%Z) None (Some "x") None;
   timed_word "S1" 5000 6000 "d"; timed_word "S2" 0 100 "e"].

(** Twelve spans of one second, two seconds apart, for one speaker. *)
Definition many_words : list Word :=
  map (fun n => timed_word "S1" (2000 * Z.of_nat n) (2000 * Z.of_nat n + 1000) "w")
    (seq 0 12).

(** Every utterance is encoded: utterance [i] gives a unit vector. *)
Definition clean_world : World float :=
  fun _ i _ =>
    match i with
    | 0 => Embedded [1; 0; 0]
    | 1 => Embedded [0; 1; 0]
    | _ => Embedded [0; 0; 1]
    end%float.

(** The extraction of the second utterance of any speaker fails. *)
Definition faulty_world : World float :=
  fun _ i _ =>
    match i with
    | 0 => Embedded [1; 0; 0]
    | 1 => ExtractFailed
    | _ => Embedded [0; 0; 1]
    end%float.

Definition sample_candidates : dict (list float) :=
  [("S1", [3; 4]); ("S2", [1; 0])]%float.

Definition sample_references : dict (list float) :=
  [("Alice", [3; 4]); ("Bob", [-3; -4])]%float.

(** The encoder raises on the second utterance and the third waveform is
    empty. *)
Definition noisy_world : World float :=
  fun _ i _ =>
    match i with
    | 0 => Embedded [1; 0; 0]
    | 1 => EncodeRaised
    | _ => WavEmpty
    end%float.

Definition sample_references3 : dict (list float) :=
  [("Alice", [1; 1; 1]); ("Bob", [1; 0; 0])]%float.

(** One video and one word file; reference files with two voices of
    dimension 3, with no voice, and with a voice of dimension 2. *)
Definition sample_env : Environment float :=
  {| worlds := fun _ => clean_world;
     read_words :=
       fun path =>
         if String.eqb path "words.json" then Some sample_words else None;
     read_reference :=
       fun path =>
         if String.eqb path "voices.json" then Loaded sample_references3
         else if String.eqb path "empty.json" then Loaded []
         else if String.eqb path "short.json" then Loaded sample_references
         else Missing;
     tolist := fun x => x |}.

Definition nan_table : dict (dict float) :=
  [("A", [("X", nan); ("Y", 0.9%float)]);
   ("B", [("X", 0.8%float); ("Y", nan)])].

(** A dot kernel for the sample runs: the plain loop, products added from
    the left, every operation rounded on its own. *)
Definition loop_dot : DotKernel float :=
  {| dot_value :=
       fun a b => fold_left PrimFloat.add (zip_with PrimFloat.mul a b) 0%float |}.

(** * Properties *)

(** ** Dictionaries *)

Lemma dict_get_set_eq {V : Type} (d : dict V) (k : string) (v : V) :
  dict_get (dict_set d k v) k = Some v.
Proof.
  induction d as [|[k' v'] d IH]; simpl.
  - now rewrite String.eqb_refl.
  - destruct (String.eqb k k') eqn:E; simpl; rewrite E; auto.
Qed.

Lemma dict_get_set_neq {V : Type} (d : dict V) (k k0 : string) (v : V) :
  k0 <> k -> dict_get (dict_set d k v) k0 = dict_get d k0.
Proof.
  intros Hne. induction d as [|[k' v'] d IH]; simpl.
  - destruct (String.eqb k0 k) eqn:E; auto.
    apply String.eqb_eq in E. contradiction.
  - destruct (String.eqb k k') eqn:E; simpl.
    + apply String.eqb_eq in E. subst k'.
      destruct (String.eqb k0 k) eqn:E0; auto.
      apply String.eqb_eq in E0. contradiction.
    + now rewrite IH.
Qed.

Lemma dict_get_None {V : Type} (d : dict V) (k : string) :
  dict_get d k = None <-> ~ In k (dict_keys d).
Proof.
  induction d as [|[k' v'] d IH]; simpl.
  - tauto.
  - destruct (String.eqb k k') eqn:E.
    + apply String.eqb_eq in E. subst. split; [discriminate | tauto].
    + apply String.eqb_neq in E. rewrite IH. split; [intros H [H1|H1] | ]; auto.
  Qed.

Lemma dict_get_In {V : Type} (d : dict V) (k : string) (v : V) :
  dict_get d k = Some v -> In (k, v) d.
Proof.
  induction d as [|[k' v'] d IH]; simpl; [discriminate|].
  destruct (String.eqb k k') eqn:E.
  - apply String.eqb_eq in E. intros [= ->]. subst. now left.
  - auto.
Qed.

Lemma dict_In_get {V : Type} (d : dict V) (k : string) (v : V) :
  dict_wf d -> In (k, v) d -> dict_get d k = Some v.
Proof.
  unfold dict_wf. induction d as [|[k' v'] d IH]; simpl; [tauto|].
  intros Hnd [H|H].
  - injection H as -> ->. now rewrite String.eqb_refl.
  - inversion Hnd as [|? ? Hnotin Hnd']; subst.
    destruct (String.eqb k k') eqn:E; auto.
    apply String.eqb_eq in E. subst k'.
    exfalso. apply Hnotin. unfold dict_keys.
    change k with (fst (k, v)). now apply in_map.
Qed.

Lemma dict_keys_set {V : Type} (d : dict V) (k : string) (v : V) :
  dict_keys (dict_set d k v) =
  if dict_mem d k then dict_keys d else dict_keys d ++ [k].
Proof.
  unfold dict_mem. induction d as [|[k' v'] d IH]; simpl; auto.
  destruct (String.eqb k k') eqn:E; simpl; auto.
  rewrite IH. now destruct (dict_get d k).
Qed.

(** ** Order of binary64 numbers *)

Ltac cmp_cases :=
  repeat match goal with
  | |- context [Z.compare ?a ?b] => destruct (Z.compare_spec a b)
  | H : context [Z.compare ?a ?b] |- _ => destruct (Z.compare_spec a b)
  | |- context [Pos.compare ?a ?b] => destruct (Pos.compare_spec a b)
  | H : context [Pos.compare ?a ?b] |- _ => destruct (Pos.compare_spec a b)
  end.

Ltac sf_crush :=
  intros; simpl in *;
  repeat match goal with
  | s : bool |- _ => destruct s
  end;
  simpl in *; try discriminate; try reflexivity;
  change (PosDef.Pos.compare_cont Eq) with Pos.compare in *;
  cmp_cases; simpl in *; subst;
  try discriminate; try reflexivity; try lia.

Lemma SF_le_lt_trans (a b c : spec_float) :
  SFleb a b = true -> SFltb b c = true -> SFltb a c = true.
Proof. unfold SFleb, SFltb. destruct a, b, c; sf_crush. Qed.

Lemma SF_le_trans (a b c : spec_float) :
  SFleb a b = true -> SFleb b c = true -> SFleb a c = true.
Proof. unfold SFleb. destruct a, b, c; sf_crush. Qed.

Lemma SF_le_antisym (a b : spec_float) :
  SFleb a b = true -> SFleb b a = true -> SFeqb a b = true.
Proof. unfold SFleb, SFeqb. destruct a, b; sf_crush. Qed.

Lemma SF_not_lt_le (a b : spec_float) :
  SFeqb a a = true -> SFeqb b b = true ->
  SFltb a b = false -> SFleb b a = true.
Proof. unfold SFleb, SFltb, SFeqb. destruct a, b; sf_crush. Qed.

Lemma float_le_lt_trans (x y z : float) :
  (x <=? y)%float = true -> (y <? z)%float = true -> (x <? z)%float = true.
Proof.
  rewrite !FloatAxioms.leb_spec, !FloatAxioms.ltb_spec.
  apply SF_le_lt_trans.
Qed.

Lemma float_le_trans (x y z : float) :
  (x <=? y)%float = true -> (y <=? z)%float = true -> (x <=? z)%float = true.
Proof. rewrite !FloatAxioms.leb_spec. apply SF_le_trans. Qed.

Lemma float_le_antisym (x y : float) :
  (x <=? y)%float = true -> (y <=? x)%float = true -> (x =? y)%float = true.
Proof.
  rewrite !FloatAxioms.leb_spec, FloatAxioms.eqb_spec. apply SF_le_antisym.
Qed.

Lemma float_lt_le (x y : float) :
  (x <? y)%float = true -> (x <=? y)%float = true.
Proof.
  rewrite FloatAxioms.leb_spec, FloatAxioms.ltb_spec.
  unfold SFleb, SFltb. now destruct (SFcompare _ _) as [[]|].
Qed.

Lemma float_not_lt_le (x y : float) :
  not_nan x -> not_nan y ->
  (x <? y)%float = false -> (y <=? x)%float = true.
Proof.
  unfold not_nan, PrimFloat.is_nan.
  rewrite !FloatAxioms.eqb_spec, FloatAxioms.leb_spec, FloatAxioms.ltb_spec.
  intros Hx Hy. apply SF_not_lt_le.
  - now destruct (SFeqb (Prim2SF x) (Prim2SF x)).
  - now destruct (SFeqb (Prim2SF y) (Prim2SF y)).
Qed.

Lemma float_le_refl (x : float) : not_nan x -> (x <=? x)%float = true.
Proof.
  intros Hx. apply float_not_lt_le; auto.
  unfold not_nan, PrimFloat.is_nan in Hx.
  rewrite FloatAxioms.eqb_spec in Hx. rewrite FloatAxioms.ltb_spec.
  unfold SFeqb, SFltb in *.
  destruct (SFcompare (Prim2SF x) (Prim2SF x)) as [[]|]; auto; discriminate.
Qed.

(** ** The argmax of [find_best_matches] *)

(** Loop invariant of [max]: the running maximum is preceded by strictly
    smaller scores and followed by scores that do not exceed it. *)
Lemma max_from_first_max_inv :
  forall (rest before : dict float) (best : string * float) (mid : dict float),
    not_nan (snd best) -> scores_ok rest ->
    Forall (fun kv => (snd kv <? snd best)%float = true) before ->
    Forall (fun kv => (snd kv <=? snd best)%float = true) mid ->
    exists l1 l2,
      before ++ best :: mid ++ rest = l1 ++ max_from best rest :: l2 /\
      Forall (fun kv => (snd kv <? snd (max_from best rest))%float = true) l1 /\
      Forall (fun kv => (snd kv <=? snd (max_from best rest))%float = true) l2.
Proof.
  induction rest as [|x rest IH]; intros before best mid Hb Hok Hlt Hle.
  - exists before, mid. rewrite app_nil_r. simpl. auto.
  - inversion Hok as [|? ? Hx Hok']; subst. simpl.
    destruct (snd best <? snd x)%float eqn:E.
    + destruct (IH (before ++ best :: mid) x [] Hx Hok') as (l1 & l2 & Heq & H1 & H2).
      * apply Forall_app. split; [|constructor].
        -- eapply Forall_impl; [|exact Hlt]. intros a Ha.
           eapply float_le_lt_trans; [apply float_lt_le; exact Ha | exact E].
        -- exact E.
        -- eapply Forall_impl; [|exact Hle]. intros a Ha.
           eapply float_le_lt_trans; [exact Ha | exact E].
      * constructor.
      * exists l1, l2. split; auto.
        rewrite <- Heq. simpl. rewrite <- app_assoc. reflexivity.
    + destruct (IH before best (mid ++ [x]) Hb Hok' Hlt) as (l1 & l2 & Heq & H1 & H2).
      * apply Forall_app. split; auto. constructor; [|constructor].
        now apply float_not_lt_le.
      * exists l1, l2. split; auto.
        rewrite <- Heq. rewrite <- app_assoc. reflexivity.
Qed.

Lemma max_from_first_max (x : string * float) (rest : dict float) :
  scores_ok (x :: rest) ->
  first_max (x :: rest) (fst (max_from x rest)) (snd (max_from x rest)).
Proof.
  intros Hok. inversion Hok as [|? ? Hx Hrest]; subst.
  destruct (max_from_first_max_inv rest [] x [] Hx Hrest) as (l1 & l2 & Heq & H1 & H2);
    try constructor.
  exists l1, l2. simpl in Heq. rewrite Heq.
  now destruct (max_from x rest).
Qed.

Lemma first_max_row_max (scores : dict float) (best : string) (m : float) :
  not_nan m -> first_max scores best m -> row_max scores m.
Proof.
  intros Hm (l1 & l2 & -> & H1 & H2). split.
  - exists best. apply in_or_app. right. now left.
  - apply Forall_app. split.
    + eapply Forall_impl; [|exact H1]. intros a. apply float_lt_le.
    + constructor; auto. simpl. now apply float_le_refl.
Qed.

Lemma first_max_not_nan (scores : dict float) (best : string) (m : float) :
  scores_ok scores -> first_max scores best m -> not_nan m.
Proof.
  intros Hok (l1 & l2 & -> & _). unfold scores_ok in Hok.
  apply Forall_app in Hok. destruct Hok as [_ Hok].
  inversion Hok; subst. assumption.
Qed.

Lemma find_best_matches_loop_lookup (threshold : float) :
  forall (items : dict (dict float)) (matches0 : dict Match),
    dict_wf items ->
    Forall (fun kr => snd kr <> []) items ->
    exists matches,
      for_each items (match_step threshold) matches0 = Ok matches /\
      forall k,
        dict_get matches k =
        match dict_get items k with
        | Some scores =>
            match row_match threshold scores with
            | Some m => Some m
            | None => dict_get matches0 k
            end
        | None => dict_get matches0 k
        end.
Proof.
  induction items as [|[speaker scores] items IH]; intros matches0 Hwf Hne.
  - exists matches0. simpl. auto.
  - inversion Hwf as [|? ? Hnotin Hwf']; subst.
    inversion Hne as [|? ? Hs Hne']; subst. simpl in Hs.
    destruct scores as [|x rest]; [congruence|].
    simpl. 
    assert (Hnone : dict_get items speaker = None) by now apply dict_get_None.
    destruct (threshold <=? snd (max_from x rest))%float eqn:E; simpl.
    + destruct (IH (dict_set matches0 speaker
                      (mkMatch (fst (max_from x rest)) (snd (max_from x rest))
                         "voice_embedding")) Hwf' Hne') as (matches & Hrun & Hget).
      exists matches. split; auto. intros k. rewrite Hget.
      cbn [dict_get]. destruct (String.eqb k speaker) eqn:Ek.
      * apply String.eqb_eq in Ek. subst k. rewrite Hnone.
        cbn [row_match]. rewrite E. apply dict_get_set_eq.
      * apply String.eqb_neq in Ek.
        rewrite dict_get_set_neq by assumption. reflexivity.
    + destruct (IH matches0 Hwf' Hne') as (matches & Hrun & Hget).
      exists matches. split; auto. intros k. rewrite Hget.
      cbn [dict_get]. destruct (String.eqb k speaker) eqn:Ek.
      * apply String.eqb_eq in Ek. subst k. rewrite Hnone.
        cbn [row_match]. rewrite E. reflexivity.
      * reflexivity.
Qed.

Lemma find_best_matches_lookup (similarities : dict (dict float))
    (threshold : float) :
  dict_wf similarities ->
  Forall (fun kr => snd kr <> []) similarities ->
  exists matches,
    find_best_matches similarities threshold = Ok matches /\
    forall k,
      dict_get matches k =
      match dict_get similarities k with
      | Some scores => row_match threshold scores
      | None => None
      end.
Proof.
  intros Hwf Hne.
  destruct (find_best_matches_loop_lookup threshold similarities [] Hwf Hne)
    as (matches & Hrun & Hget).
  exists matches. split; auto. intros k. rewrite Hget. simpl.
  destruct (dict_get similarities k); auto.
  now destruct (row_match threshold d).
Qed.

Lemma table_ok_rows (similarities : dict (dict float)) :
  table_ok similarities ->
  dict_wf similarities /\ Forall (fun kr => snd kr <> []) similarities.
Proof.
  intros [Hwf Hrows]. split; auto.
  eapply Forall_impl; [|exact Hrows]. now intros a [H _].
Qed.

(** ** IdentityMatcher *)

Lemma for_each_match_step_empty_row (threshold : float) :
  forall (items : dict (dict float)) (matches0 : dict Match) (speaker : string),
    In (speaker, []) items ->
    for_each items (match_step threshold) matches0 =
    Raise (ValueError "max() iterable argument is empty").
Proof.
  induction items as [|[s scores] items IH]; intros matches0 speaker Hin.
  - contradiction.
  - destruct scores as [|x rest]; [reflexivity|].
    destruct Hin as [Hin|Hin]; [discriminate|].
    cbn [for_each match_step py_max_score bind].
    destruct (threshold <=? snd (max_from x rest))%float; eapply IH; eauto.
Qed.

(** C1 (the code departs from the claim): on a similarity table with an
    empty row [find_best_matches] does not omit the candidate and return the
    matches of the other candidates; [max] over the empty row raises
    [ValueError], whatever the other rows and the threshold are. *)
Theorem find_best_matches_empty_row_raises
    (similarities : dict (dict float)) (threshold : float) (speaker : string) :
  In (speaker, []) similarities ->
  find_best_matches similarities threshold =
  Raise (ValueError "max() iterable argument is empty").
Proof. apply for_each_match_step_empty_row. Qed.

Lemma find_best_matches_empty_row_raises_witness :
  In ("A", []) [("A", @nil (string * float))] /\
  find_best_matches [("A", [])] default_threshold =
  Raise (ValueError "max() iterable argument is empty").
Proof.
  split.
  - simpl. left. reflexivity.
  - apply (find_best_matches_empty_row_raises _ default_threshold "A").
    simpl. left. reflexivity.
Defined.

(** An empty reference set, as [main] may load it, gives every candidate an
    empty row, and the matching that follows raises. *)
Example find_best_matches_no_reference :
  compare_speakers (DK := loop_dot) sample_candidates [] =
    Ok [("S1", []); ("S2", [])] /\
  (similarities <- compare_speakers (DK := loop_dot) sample_candidates [] ;;
   find_best_matches similarities default_threshold) =
  Raise (ValueError "max() iterable argument is empty").
Proof. split; reflexivity. Qed.

(** A candidate with a match does not keep it when another row is empty. *)
Example find_best_matches_mixed_rows :
  find_best_matches [("A", [("X", 0.9%float)]); ("B", [])] default_threshold =
  Raise (ValueError "max() iterable argument is empty").
Proof. reflexivity. Qed.

(** The matching example of the spec. *)
Example find_best_matches_accepts :
  find_best_matches [("A", [("X", 0.9%float); ("Y", 0.6%float)])] 0.75%float =
  Ok [("A", mkMatch "X" 0.9%float "voice_embedding")].
Proof. reflexivity. Qed.

Example find_best_matches_rejects :
  find_best_matches [("A", [("X", 0.9%float); ("Y", 0.6%float)])] 0.95%float =
  Ok [].
Proof. reflexivity. Qed.


(** C2, as claimed, fails: with the row [{"Y": 0.8, "X": 0.8}] the match is
    "Y", although "X" has the same score and is lexicographically smaller;
    the same entries inserted in the other order give "X". *)
Lemma tie_break_follows_insertion_order :
  find_best_matches [("A", tie_row_YX)] default_threshold =
    Ok [("A", mkMatch "Y" 0.8%float "voice_embedding")] /\
  ~ lex_smallest_max tie_row_YX "Y" /\
  find_best_matches [("A", tie_row_XY)] default_threshold =
    Ok [("A", mkMatch "X" 0.8%float "voice_embedding")].
Proof.
  split; [reflexivity|]. split; [|reflexivity].
  intros (m & Hm & _ & Hlex).
  assert (Hin : In ("X", 0.8%float) tie_row_YX) by (right; left; reflexivity).
  destruct Hm as [Hm|[Hm|[]]]; [|discriminate Hm].
  injection Hm as <-.
  specialize (Hlex "X" 0.8%float Hin eq_refl). discriminate Hlex.
Qed.

(** C2 (amended): among the references that share the maximum score of a
    row, [find_best_matches] selects the one that comes first in the
    insertion order of the row: every score before it is strictly smaller
    and no score after it is larger. *)
Theorem find_best_matches_first_maximum
    (similarities : dict (dict float)) (threshold : float) :
  table_ok similarities ->
  exists matches,
    find_best_matches similarities threshold = Ok matches /\
    forall speaker scores mt,
      In (speaker, scores) similarities ->
      dict_get matches speaker = Some mt ->
      first_max scores (character mt) (confidence mt).
Proof.
  intros Hok. destruct (table_ok_rows _ Hok) as [Hwf Hne].
  destruct (find_best_matches_lookup similarities threshold Hwf Hne)
    as (matches & Hrun & Hget).
  exists matches. split; [exact Hrun|].
  intros speaker scores mt Hin Hmt.
  rewrite Hget, (dict_In_get _ _ _ Hwf Hin) in Hmt.
  destruct Hok as [_ Hrows]. rewrite Forall_forall in Hrows.
  destruct (Hrows _ Hin) as [_ Hscores]. simpl in Hscores.
  destruct scores as [|x rest]; [discriminate|].
  cbn [row_match] in Hmt.
  destruct (threshold <=? snd (max_from x rest))%float; [|discriminate].
  injection Hmt as <-. simpl. now apply max_from_first_max.
Qed.

Lemma find_best_matches_first_maximum_witness :
  table_ok [("A", tie_row_YX)] /\
  exists matches,
    find_best_matches [("A", tie_row_YX)] default_threshold = Ok matches /\
    forall speaker scores mt,
      In (speaker, scores) [("A", tie_row_YX)] ->
      dict_get matches speaker = Some mt ->
      first_max scores (character mt) (confidence mt).
Proof.
  assert (Hok : table_ok [("A", tie_row_YX)]).
  { split.
    - repeat constructor. simpl. tauto.
    - repeat constructor; discriminate. }
  split; [exact Hok|].
  exact (find_best_matches_first_maximum _ default_threshold Hok).
Defined.

(** C5: on a table without empty rows and without NaN, for every candidate
    row and its maximum score [m]: when [m >= threshold] the result holds a
    match for the candidate whose confidence is that maximum; when not, the
    candidate has no entry at all.  Speakers that are not candidates have no
    entry either. *)
Theorem find_best_matches_threshold
    (similarities : dict (dict float)) (threshold : float) :
  table_ok similarities ->
  exists matches,
    find_best_matches similarities threshold = Ok matches /\
    (forall speaker scores m,
       In (speaker, scores) similarities -> row_max scores m ->
       ((threshold <=? m)%float = true ->
        exists best c,
          dict_get matches speaker = Some (mkMatch best c "voice_embedding") /\
          In (best, c) scores /\ row_max scores c /\ (c =? m)%float = true) /\
       ((threshold <=? m)%float = false ->
        dict_get matches speaker = None)) /\
    (forall speaker,
       dict_get similarities speaker = None ->
       dict_get matches speaker = None).
Proof.
  intros Hok. destruct (table_ok_rows _ Hok) as [Hwf Hne].
  destruct (find_best_matches_lookup similarities threshold Hwf Hne)
    as (matches & Hrun & Hget).
  exists matches. split; [exact Hrun|]. split.
  - intros speaker scores m Hin [[km Hkm] Hmax].
    rewrite Hget, (dict_In_get _ _ _ Hwf Hin).
    destruct Hok as [_ Hrows]. rewrite Forall_forall in Hrows.
    destruct (Hrows _ Hin) as [_ Hscores]. simpl in Hscores.
    destruct scores as [|x rest]; [contradiction|].
    pose proof (max_from_first_max x rest Hscores) as Hfirst.
    pose proof (first_max_not_nan _ _ _ Hscores Hfirst) as Hnn.
    pose proof (first_max_row_max _ _ _ Hnn Hfirst) as Hrow.
    assert (Hinb : In (max_from x rest) (x :: rest)).
    { destruct Hfirst as (l1 & l2 & Heq & _). rewrite Heq.
      apply in_or_app. right. left. now destruct (max_from x rest). }
    assert (Hbm : (snd (max_from x rest) <=? m)%float = true).
    { rewrite Forall_forall in Hmax. exact (Hmax _ Hinb). }
    assert (Hmb : (m <=? snd (max_from x rest))%float = true).
    { destruct Hrow as [_ Hall]. rewrite Forall_forall in Hall.
      exact (Hall _ Hkm). }
    cbn [row_match]. split.
    + intros Hthr.
      rewrite (float_le_trans _ _ _ Hthr Hmb).
      exists (fst (max_from x rest)), (snd (max_from x rest)).
      repeat split.
      * now destruct (max_from x rest).
      * destruct Hrow as [[k Hk] _]. now exists k.
      * now destruct Hrow.
      * now apply float_le_antisym.
    + intros Hthr.
      destruct (threshold <=? snd (max_from x rest))%float eqn:E; auto.
      rewrite (float_le_trans _ _ _ E Hbm) in Hthr. discriminate.
  - intros speaker Hnone. now rewrite Hget, Hnone.
Qed.


Lemma find_best_matches_threshold_witness :
  table_ok spec_table /\
  exists matches,
    find_best_matches spec_table default_threshold = Ok matches /\
    (forall speaker scores m,
       In (speaker, scores) spec_table -> row_max scores m ->
       ((default_threshold <=? m)%float = true ->
        exists best c,
          dict_get matches speaker = Some (mkMatch best c "voice_embedding") /\
          In (best, c) scores /\ row_max scores c /\ (c =? m)%float = true) /\
       ((default_threshold <=? m)%float = false ->
        dict_get matches speaker = None)) /\
    (forall speaker,
       dict_get spec_table speaker = None ->
       dict_get matches speaker = None).
Proof.
  assert (Hok : table_ok spec_table).
  { split.
    - repeat constructor. simpl. tauto.
    - repeat constructor; discriminate. }
  split; [exact Hok|].
  exact (find_best_matches_threshold _ default_threshold Hok).
Defined.

(** ** SegmentSelector *)

(** C3: spans [0,400), [450,900), [2000,2200) with both thresholds at
    500 ms.  The gap 450 - 400 = 50 is below the merge threshold, so the
    first two spans are folded into [0,900); the third span opens a new
    current utterance (gap 1100), which is still current when the pass ends;
    its duration 200 does not exceed the minimum, so it is dropped, and
    [0,900), of duration 900, is the only utterance. *)
Theorem merge_segments_spec_example (t1 t2 t3 : string) :
  gap_merge_threshold_ms = 500%Z /\
  min_utterance_duration_ms = 500%Z /\
  fold_left merge_step (sorted_by_start (firstn 2 (spec_spans t1 t2 t3)))
    ([], None) =
    ([], Some (mkSegment 0 900 (String.append t1 (String.append " " t2)))) /\
  fold_left merge_step (sorted_by_start (spec_spans t1 t2 t3)) ([], None) =
    ([mkSegment 0 900 (String.append t1 (String.append " " t2))],
     Some (mkSegment 2000 2200 t3)) /\
  long_enough (mkSegment 0 900 (String.append t1 (String.append " " t2))) = true /\
  long_enough (mkSegment 2000 2200 t3) = false /\
  merge_segments (spec_spans t1 t2 t3) =
    [mkSegment 0 900 (String.append t1 (String.append " " t2))].
Proof. repeat split. Qed.

(** The three spans reach the merge in start order whatever their order in
    the word list. *)
Example merge_unordered_spans :
  merge_segments
    [mkSegment 2000 2200 "c"; mkSegment 450 900 "b"; mkSegment 0 400 "a"] =
  [mkSegment 0 900 "a b"].
Proof. reflexivity. Qed.

(** [sorted_by_start] is Python's [sorted] with the start time as key: it
    permutes its input, orders it by start time, and is stable. *)
Lemma insert_by_start_perm (x : Segment) (l : list Segment) :
  Permutation (x :: l) (insert_by_start x l).
Proof.
  induction l as [|y l IH]; simpl; auto.
  destruct (seg_start x <=? seg_start y)%Z; auto.
  rewrite perm_swap. now constructor.
Qed.

Lemma sorted_by_start_perm (l : list Segment) :
  Permutation l (sorted_by_start l).
Proof.
  induction l as [|x l IH]; simpl; auto.
  rewrite <- insert_by_start_perm. now constructor.
Qed.

Lemma insert_by_start_sorted (x : Segment) (l : list Segment) :
  Sorted start_le l -> Sorted start_le (insert_by_start x l).
Proof.
  induction l as [|y l IH]; intros Hs; simpl.
  - repeat constructor.
  - destruct (seg_start x <=? seg_start y)%Z eqn:E.
    + constructor; auto. constructor. unfold start_le. lia.
    + inversion Hs as [|? ? Hs' Hhd]; subst.
      constructor; auto.
      destruct l as [|z l]; simpl in *.
      * constructor. unfold start_le. lia.
      * destruct (seg_start x <=? seg_start z)%Z.
        -- constructor. unfold start_le. lia.
        -- inversion Hhd; subst. now constructor.
Qed.

Lemma sorted_by_start_sorted (l : list Segment) :
  Sorted start_le (sorted_by_start l).
Proof.
  induction l as [|x l IH]; simpl.
  - constructor.
  - now apply insert_by_start_sorted.
Qed.

Lemma insert_by_start_filter (z : Z) (x : Segment) (l : list Segment) :
  filter (fun s => (seg_start s =? z)%Z) (insert_by_start x l) =
  filter (fun s => (seg_start s =? z)%Z) (x :: l).
Proof.
  induction l as [|y l IH]; simpl; auto.
  destruct (seg_start x <=? seg_start y)%Z eqn:E; simpl; auto.
  rewrite IH. simpl.
  destruct (seg_start x =? z)%Z eqn:Ex; auto.
  destruct (seg_start y =? z)%Z eqn:Ey; auto.
  lia.
Qed.

Lemma sorted_by_start_stable (z : Z) (l : list Segment) :
  filter (fun s => (seg_start s =? z)%Z) (sorted_by_start l) =
  filter (fun s => (seg_start s =? z)%Z) l.
Proof.
  induction l as [|x l IH]; simpl; auto.
  rewrite insert_by_start_filter. simpl. now rewrite IH.
Qed.

(** Grouping by speaker. *)
Lemma dict_set_wf {V : Type} (d : dict V) (k : string) (v : V) :
  dict_wf d -> dict_wf (dict_set d k v).
Proof.
  unfold dict_wf. intros Hwf. rewrite dict_keys_set. unfold dict_mem.
  destruct (dict_get d k) eqn:E; auto.
  apply dict_get_None in E.
  eapply Permutation_NoDup; [apply Permutation_cons_append|].
  now constructor.
Qed.

Lemma group_step_get (acc : dict (list Segment)) (word : Word) (k : string) :
  dict_get (group_step acc word) k =
  if String.eqb (speaker_of word) UNKNOWN then dict_get acc k
  else if String.eqb k (speaker_of word)
       then Some (py_get (dict_get acc k) [] ++ [word_segment word])
       else dict_get acc k.
Proof.
  unfold group_step. fold (speaker_of word).
  destruct (String.eqb (speaker_of word) UNKNOWN); auto.
  destruct (String.eqb k (speaker_of word)) eqn:Ek.
  - apply String.eqb_eq in Ek. subst k.
    rewrite dict_get_set_eq. f_equal. f_equal.
    unfold dict_mem. destruct (dict_get acc (speaker_of word)) eqn:E.
    + now rewrite E.
    + now rewrite dict_get_set_eq.
  - apply String.eqb_neq in Ek.
    rewrite dict_get_set_neq by assumption.
    destruct (dict_mem acc (speaker_of word)); auto.
    now rewrite dict_get_set_neq.
Qed.

Lemma group_step_wf (acc : dict (list Segment)) (word : Word) :
  dict_wf acc -> dict_wf (group_step acc word).
Proof.
  intros Hwf. unfold group_step.
  destruct (String.eqb (py_get (w_speaker word) UNKNOWN) UNKNOWN); auto.
  apply dict_set_wf.
  destruct (dict_mem acc (py_get (w_speaker word) UNKNOWN)); auto.
  now apply dict_set_wf.
Qed.

Lemma fold_group_step_wf (words : list Word) :
  forall acc, dict_wf acc -> dict_wf (fold_left group_step words acc).
Proof.
  induction words as [|w words IH]; intros acc Hwf; simpl; auto.
  apply IH. now apply group_step_wf.
Qed.

Lemma group_words_wf (words : list Word) : dict_wf (group_words words).
Proof. apply fold_group_step_wf. constructor. Qed.

Lemma fold_group_step_get (words : list Word) :
  forall (acc : dict (list Segment)) (k : string),
    dict_get (fold_left group_step words acc) k =
    if String.eqb k UNKNOWN then dict_get acc k
    else match speaker_spans words k with
         | [] => dict_get acc k
         | _ :: _ => Some (py_get (dict_get acc k) [] ++ speaker_spans words k)
         end.
Proof.
  unfold speaker_spans.
  induction words as [|w words IH]; intros acc k; simpl.
  - now destruct (String.eqb k UNKNOWN).
  - rewrite IH, group_step_get.
    destruct (String.eqb k UNKNOWN) eqn:Eu.
    + apply String.eqb_eq in Eu. subst k.
      destruct (String.eqb (speaker_of w) UNKNOWN) eqn:Ew; auto.
      rewrite String.eqb_sym, Ew. reflexivity.
    + destruct (String.eqb (speaker_of w) UNKNOWN) eqn:Ew.
      * apply String.eqb_eq in Ew. rewrite Ew.
        rewrite String.eqb_sym, Eu. reflexivity.
      * rewrite (String.eqb_sym (speaker_of w) k).
        destruct (String.eqb k (speaker_of w)); simpl; auto.
        destruct (map word_segment
                    (filter (fun word => String.eqb (speaker_of word) k) words));
          simpl; auto.
        now rewrite <- app_assoc.
Qed.

(** The group of a speaker holds the spans of all its words, in list
    order; the sentinel and speakers without words have no group. *)
Lemma group_words_get (words : list Word) (k : string) :
  dict_get (group_words words) k =
  if String.eqb k UNKNOWN then None
  else match speaker_spans words k with
       | [] => None
       | _ :: _ => Some (speaker_spans words k)
       end.
Proof. unfold group_words. now rewrite fold_group_step_get. Qed.

(** C10: no word is rejected for a missing field.  The start of its span is
    [startMs], else [start], else 0; the end is [endMs], else [end], else 0;
    the text is [text], else [word], else the empty string.  Every word of a
    speaker other than the sentinel is grouped with these values, every
    grouped span is kept by the sort, and a span made of defaults only is
    merged like the others. *)
Theorem word_fields_default (words : list Word) :
  (forall w,
     seg_start (word_segment w) =
       match w_startMs w, w_start w with
       | Some t, _ => t
       | None, Some t => t
       | None, None => 0%Z
       end /\
     seg_end (word_segment w) =
       match w_endMs w, w_end w with
       | Some t, _ => t
       | None, Some t => t
       | None, None => 0%Z
       end /\
     seg_text (word_segment w) =
       match w_text w, w_word w with
       | Some t, _ => t
       | None, Some t => t
       | None, None => ""
       end) /\
  (forall s,
     s <> UNKNOWN ->
     dict_get (group_words words) s =
       match filter (fun w => String.eqb (speaker_of w) s) words with
       | [] => None
       | w :: ws => Some (map word_segment (w :: ws))
       end) /\
  (forall segments, Permutation segments (sorted_by_start segments)) /\
  word_segment (bare_word "S1") = mkSegment 0 0 "" /\
  group_words [timed_word "S1" 100 700 "x"; bare_word "S1"] =
    [("S1", [mkSegment 100 700 "x"; mkSegment 0 0 ""])] /\
  merge_segments [mkSegment 100 700 "x"; mkSegment 0 0 ""] =
    [mkSegment 0 700 (String.append "" (String.append " " "x"))].
Proof.
  split; [|split; [|split; [|repeat split]]].
  - intros w. unfold word_segment, py_get. cbn [seg_start seg_end seg_text].
    destruct (w_startMs w), (w_start w), (w_endMs w), (w_end w),
      (w_text w), (w_word w); auto.
  - intros s Hs. apply String.eqb_neq in Hs.
    rewrite group_words_get, Hs. unfold speaker_spans.
    now destruct (filter (fun w => String.eqb (speaker_of w) s) words).
  - apply sorted_by_start_perm.
Qed.

(** ** FingerprintAggregator *)

Section KernelProps.
Context {F : Type} {AF : Arith F}.

Lemma zip_with_length (f : F -> F -> F) (a b : list F) :
  length a = length b -> length (zip_with f a b) = length a.
Proof.
  revert b. induction a as [|x a IH]; intros [|y b] H; simpl in *;
    try discriminate; auto.
Qed.

Lemma nth_zip_with (f : F -> F -> F) (d : F) (a b : list F) (k : nat) :
  length a = length b -> k < length a ->
  nth k (zip_with f a b) d = f (nth k a d) (nth k b d).
Proof.
  revert b k. induction a as [|x a IH]; intros [|y b] k Hlen Hk; simpl in *;
    try discriminate; try lia.
  destruct k; auto. apply IH; lia.
Qed.

Lemma fold_zip_length (D : nat) (rest : list (list F)) :
  forall v, length v = D -> Forall (fun w => length w = D) rest ->
            length (fold_left (zip_with fadd) rest v) = D.
Proof.
  induction rest as [|w rest IH]; intros v Hv Hall; simpl; auto.
  inversion Hall; subst. apply IH; auto.
  rewrite zip_with_length; congruence.
Qed.

Lemma nth_fold_zip (D k : nat) (rest : list (list F)) :
  forall v, length v = D -> Forall (fun w => length w = D) rest -> k < D ->
    nth k (fold_left (zip_with fadd) rest v) fzero =
    sum_from (nth k v fzero) (map (fun w => nth k w fzero) rest).
Proof.
  unfold sum_from.
  induction rest as [|w rest IH]; intros v Hv Hall Hk; simpl; auto.
  inversion Hall; subst. rewrite IH; auto.
  - rewrite nth_zip_with; auto; lia.
  - rewrite zip_with_length; congruence.
Qed.

Lemma np_mean_axis0_ok (D : nat) (v : list F) (rest : list (list F)) :
  Forall (fun w => length w = D) (v :: rest) ->
  np_mean_axis0 v rest = Ok (mean_rows v rest).
Proof.
  intros Hall. inversion Hall as [|? ? Hv Hrest]; subst.
  unfold np_mean_axis0.
  replace (forallb (same_length v) rest) with true; auto.
  symmetry. apply forallb_forall. intros w Hw.
  rewrite Forall_forall in Hrest. unfold same_length.
  apply Nat.eqb_eq. auto.
Qed.

Lemma mean_rows_is_mean (D : nat) (v : list F) (rest : list (list F)) :
  Forall (fun w => length w = D) (v :: rest) ->
  is_mean D (v :: rest) (mean_rows v rest).
Proof.
  intros Hall. inversion Hall as [|? ? Hv Hrest]; subst.
  unfold is_mean, mean_rows. split.
  - rewrite length_map. now apply fold_zip_length.
  - intros k Hk. unfold mean_at.
    rewrite <- (nth_fold_zip (length v) k rest v eq_refl Hrest Hk).
    set (g := fun s => fdiv s (of_count (S (length rest)))).
    rewrite (nth_indep _ fzero (g fzero)).
    + apply map_nth.
    + rewrite length_map. rewrite (fold_zip_length (length v)); auto.
Qed.

End KernelProps.

Section AggregatorProps.
Context {F : Type} {AF : Arith F}.
Variable world : World F.

Lemma fold_embed_step (speaker_id : string) (items : list (nat * Segment)) :
  forall (embeddings : list (list F)) (trace : list Event),
    fold_left (embed_step world speaker_id) items (embeddings, trace) =
    (embeddings ++ collected world speaker_id items,
     trace ++ flat_map (step_events world speaker_id) items).
Proof.
  induction items as [|[i seg] items IH]; intros embeddings trace.
  - simpl. now rewrite !app_nil_r.
  - cbn [fold_left embed_step].
    unfold collected, step_events, extract_event. cbn [flat_map fst snd].
    destruct (world speaker_id i seg); rewrite IH;
      unfold collected, step_events, extract_event; cbn [outcome_vectors];
      rewrite <- ?app_assoc; reflexivity.
Qed.

Lemma collected_dim (D : nat) (speaker_id : string)
    (items : list (nat * Segment)) :
  world_dim world D ->
  Forall (fun w => length w = D) (collected world speaker_id items).
Proof.
  intros Hdim. induction items as [|[i seg] items IH]; simpl; auto.
  destruct (world speaker_id i seg) eqn:E; simpl; auto.
  constructor; auto. eapply Hdim; eauto.
Qed.

Lemma speaker_step_spec (D : nat) (speaker_embeddings : dict (list F))
    (trace : list Event) (speaker_id : string) (segments : list Segment) :
  world_dim world D ->
  speaker_step world (speaker_embeddings, trace) (speaker_id, segments) =
  Ok (match fingerprint_of (speaker_vectors world speaker_id segments) with
      | Some fp => dict_set speaker_embeddings speaker_id fp
      | None => speaker_embeddings
      end,
      trace ++ speaker_events world speaker_id segments).
Proof.
  intros Hdim.
  pose proof (collected_dim D speaker_id (enumerate (utterances segments)) Hdim)
    as Hall.
  unfold speaker_step, speaker_events, speaker_vectors, utterances in *.
  destruct (merge_segments (firstn max_sample_segments segments)) as [|m ms].
  - reflexivity.
  - rewrite fold_embed_step. cbn [app].
    destruct (collected world speaker_id
                (enumerate (firstn max_merged_segments (m :: ms))))
      as [|v rest] eqn:Ec.
    + cbn [fingerprint_of]. now rewrite app_assoc.
    + rewrite (np_mean_axis0_ok D v rest Hall). cbn [bind fingerprint_of].
      now rewrite app_assoc.
Qed.

Lemma for_each_speaker_step (D : nat) :
  world_dim world D ->
  forall (items : dict (list Segment)) (embs0 : dict (list F))
         (tr0 : list Event),
    dict_wf items ->
    exists embs,
      for_each items (speaker_step world) (embs0, tr0) =
      Ok (embs,
          tr0 ++ flat_map (fun it => speaker_events world (fst it) (snd it))
                   items) /\
      (dict_wf embs0 -> dict_wf embs) /\
      forall k,
        dict_get embs k =
        match dict_get items k with
        | Some segments =>
            match fingerprint_of (speaker_vectors world k segments) with
            | Some fp => Some fp
            | None => dict_get embs0 k
            end
        | None => dict_get embs0 k
        end.
Proof.
  intros Hdim.
  induction items as [|[speaker_id segments] items IH]; intros embs0 tr0 Hwf.
  - exists embs0. simpl. rewrite app_nil_r. auto.
  - inversion Hwf as [|? ? Hnotin Hwf']; subst.
    assert (Hnone : dict_get items speaker_id = None)
      by now apply dict_get_None.
    cbn [for_each]. rewrite (speaker_step_spec D) by assumption.
    cbn [bind].
    destruct (IH (match fingerprint_of (speaker_vectors world speaker_id segments) with
                  | Some fp => dict_set embs0 speaker_id fp
                  | None => embs0
                  end)
                 (tr0 ++ speaker_events world speaker_id segments) Hwf')
      as (embs & Hrun & Hkeep & Hget).
    exists embs. split; [|split].
    + rewrite Hrun. cbn [flat_map fst snd]. now rewrite app_assoc.
    + intros H0. apply Hkeep.
      destruct (fingerprint_of (speaker_vectors world speaker_id segments));
        auto using dict_set_wf.
    + intros k. rewrite Hget. cbn [dict_get].
      destruct (String.eqb k speaker_id) eqn:Ek.
      * apply String.eqb_eq in Ek. subst k. rewrite Hnone.
        destruct (fingerprint_of (speaker_vectors world speaker_id segments));
          auto using dict_get_set_eq.
      * apply String.eqb_neq in Ek.
        destruct (fingerprint_of (speaker_vectors world speaker_id segments));
          rewrite ?dict_get_set_neq by assumption; reflexivity.
Qed.

(** The run as a whole, for an encoder of fixed dimension: it returns, a
    speaker has a fingerprint exactly when vectors were collected for it,
    and the trace lists the speakers in order of first appearance. *)
Lemma create_speaker_embeddings_spec (D : nat) (words : list Word) :
  world_dim world D ->
  exists embs,
    create_speaker_embeddings world words =
    Ok (embs,
        [EvCreating; EvFound (length (group_words words))]
        ++ flat_map (fun it => speaker_events world (fst it) (snd it))
             (group_words words)) /\
    dict_wf embs /\
    forall k,
      dict_get embs k =
      if String.eqb k UNKNOWN then None
      else fingerprint_of (speaker_vectors world k (speaker_spans words k)).
Proof.
  intros Hdim.
  destruct (for_each_speaker_step D Hdim (group_words words) []
              [EvCreating; EvFound (length (group_words words))]
              (group_words_wf words)) as (embs & Hrun & Hkeep & Hget).
  exists embs. split; [exact Hrun|]. split.
  - apply Hkeep. constructor.
  - intros k. rewrite Hget, group_words_get.
    destruct (String.eqb k UNKNOWN); [reflexivity|].
    destruct (speaker_spans words k) eqn:E.
    + reflexivity.
    + now destruct (fingerprint_of (speaker_vectors world k (s :: l))).
Qed.

Lemma filter_speaker_trace (p : Event -> bool) (speaker_id : string)
    (h : list Segment -> list Event) :
  (forall s' segments,
      filter p (speaker_events world s' segments) =
      if String.eqb speaker_id s' then h segments else []) ->
  forall items : dict (list Segment),
    dict_wf items ->
    filter p (flat_map (fun it => speaker_events world (fst it) (snd it)) items) =
    match dict_get items speaker_id with
    | Some segments => h segments
    | None => []
    end.
Proof.
  intros Hp. induction items as [|[s' segments] items IH]; intros Hwf.
  - reflexivity.
  - inversion Hwf as [|? ? Hnotin Hwf']; subst.
    cbn [flat_map fst snd dict_get]. rewrite filter_app, Hp, IH by assumption.
    destruct (String.eqb speaker_id s') eqn:E.
    + apply String.eqb_eq in E. subst s'.
      apply dict_get_None in Hnotin. rewrite Hnotin. apply app_nil_r.
    + reflexivity.
Qed.

Lemma filter_extract_step_events (speaker_id s' : string)
    (items : list (nat * Segment)) :
  filter (is_extract_of speaker_id) (flat_map (step_events world s') items) =
  if String.eqb speaker_id s' then map (extract_event s') items else [].
Proof.
  induction items as [|item items IH].
  - simpl. now destruct (String.eqb speaker_id s').
  - cbn [flat_map]. rewrite filter_app, IH.
    unfold step_events, extract_event. cbn [filter is_extract_of].
    rewrite (String.eqb_sym s' speaker_id).
    destruct (String.eqb speaker_id s');
      destruct (world s' (fst item) (snd item)); reflexivity.
Qed.

Lemma filter_extract_speaker_events (speaker_id s' : string)
    (segments : list Segment) :
  filter (is_extract_of speaker_id) (speaker_events world s' segments) =
  if String.eqb speaker_id s'
  then map (extract_event speaker_id) (enumerate (utterances segments))
  else [].
Proof.
  unfold speaker_events, utterances.
  destruct (merge_segments (firstn max_sample_segments segments)) as [|m ms].
  - simpl. now destruct (String.eqb speaker_id s').
  - rewrite filter_app, filter_extract_step_events.
    replace (filter (is_extract_of speaker_id) _) with (@nil Event).
    + rewrite app_nil_r. destruct (String.eqb speaker_id s') eqn:E; auto.
      apply String.eqb_eq in E. now subst.
    + now destruct (speaker_vectors world s' segments).
Qed.

Lemma filter_created_step_events (speaker_id s' : string)
    (items : list (nat * Segment)) :
  filter (is_created_of speaker_id) (flat_map (step_events world s') items) = [].
Proof.
  induction items as [|item items IH]; auto.
  cbn [flat_map]. rewrite filter_app, IH.
  unfold step_events, extract_event. cbn [filter is_created_of].
  destruct (world s' (fst item) (snd item)); reflexivity.
Qed.

Lemma filter_created_speaker_events (speaker_id s' : string)
    (segments : list Segment) :
  filter (is_created_of speaker_id) (speaker_events world s' segments) =
  if String.eqb speaker_id s'
  then match speaker_vectors world speaker_id segments with
       | [] => []
       | _ :: _ =>
           [EvCreated speaker_id
              (length (speaker_vectors world speaker_id segments))]
       end
  else [].
Proof.
  unfold speaker_events.
  destruct (merge_segments (firstn max_sample_segments segments)) as [|m ms] eqn:Em.
  - cbn [filter is_created_of].
    destruct (String.eqb speaker_id s'); auto.
    unfold speaker_vectors, utterances. now rewrite Em.
  - rewrite filter_app, filter_created_step_events. cbn [app].
    destruct (String.eqb speaker_id s') eqn:E.
    + apply String.eqb_eq in E. subst s'.
      destruct (speaker_vectors world speaker_id segments); cbn [filter is_created_of];
        rewrite ?String.eqb_refl; reflexivity.
    + destruct (speaker_vectors world s' segments); cbn [filter is_created_of];
        rewrite ?(String.eqb_sym s' speaker_id), ?E; reflexivity.
Qed.

Lemma run_created_events (words : list Word) (s : string) :
  filter (is_created_of s)
    ([EvCreating; EvFound (length (group_words words))]
     ++ flat_map (fun it => speaker_events world (fst it) (snd it))
          (group_words words)) =
  if String.eqb s UNKNOWN then []
  else match speaker_vectors world s (speaker_spans words s) with
       | [] => []
       | _ :: _ =>
           [EvCreated s (length (speaker_vectors world s (speaker_spans words s)))]
       end.
Proof.
  cbn [app filter is_created_of].
  rewrite (filter_speaker_trace _ s _ (filter_created_speaker_events s))
    by apply group_words_wf.
  rewrite group_words_get.
  destruct (String.eqb s UNKNOWN); [reflexivity|].
  now destruct (speaker_spans words s).
Qed.

Lemma run_extract_events (words : list Word) (s : string) :
  filter (is_extract_of s)
    ([EvCreating; EvFound (length (group_words words))]
     ++ flat_map (fun it => speaker_events world (fst it) (snd it))
          (group_words words)) =
  if String.eqb s UNKNOWN then []
  else map (extract_event s) (enumerate (utterances (speaker_spans words s))).
Proof.
  cbn [app filter is_extract_of].
  rewrite (filter_speaker_trace _ s _ (filter_extract_speaker_events s))
    by apply group_words_wf.
  rewrite group_words_get.
  destruct (String.eqb s UNKNOWN); [reflexivity|].
  now destruct (speaker_spans words s).
Qed.

Lemma enumerate_from_app {A : Type} (a b : list A) :
  forall n, enumerate_from n (a ++ b) =
            enumerate_from n a ++ enumerate_from (n + length a) b.
Proof.
  induction a as [|x a IH]; intros n; simpl.
  - now rewrite Nat.add_0_r.
  - rewrite IH. now rewrite Nat.add_succ_r.
Qed.

Lemma enumerate_from_length {A : Type} (l : list A) :
  forall n, length (enumerate_from n l) = length l.
Proof. induction l; intros n; simpl; auto. Qed.

Lemma enumerate_from_In {A : Type} (l : list A) :
  forall n i x,
    In (i, x) (enumerate_from n l) <->
    n <= i /\ nth_error l (i - n) = Some x.
Proof.
  induction l as [|y l IH]; intros n i x; simpl.
  - split; [tauto|]. intros [_ H]. now destruct (i - n).
  - rewrite IH. split.
    + intros [H|[Hle H]].
      * injection H as <- <-. rewrite Nat.sub_diag. auto.
      * split; [lia|]. replace (i - n) with (S (i - S n)) by lia. exact H.
    + intros [Hle H]. destruct (i - n) as [|m] eqn:E.
      * left. injection H as <-. f_equal. lia.
      * right. split; [lia|]. replace (i - S n) with m by lia. exact H.
Qed.

Lemma collected_nonempty (speaker_id : string) (us : list Segment) :
  collected world speaker_id (enumerate us) <> [] <->
  exists i u v, nth_error us i = Some u /\ world speaker_id i u = Embedded v.
Proof.
  unfold collected, enumerate. split.
  - intros Hne.
    destruct (flat_map _ _) as [|v vs] eqn:E; [congruence|].
    assert (Hin : In v (v :: vs)) by now left.
    rewrite <- E in Hin. apply in_flat_map in Hin.
    destruct Hin as ([i u] & Hiu & Hv). cbn [fst snd] in Hv.
    apply enumerate_from_In in Hiu. destruct Hiu as [_ Hiu].
    rewrite Nat.sub_0_r in Hiu.
    exists i, u. destruct (world speaker_id i u) eqn:Ew; try contradiction.
    eauto.
  - intros (i & u & v & Hu & Hw) Hnil.
    assert (Hin : In v (flat_map
              (fun item => outcome_vectors (world speaker_id (fst item) (snd item)))
              (enumerate_from 0 us))).
    { apply in_flat_map. exists (i, u). split.
      - apply enumerate_from_In. rewrite Nat.sub_0_r. split; [lia|exact Hu].
      - cbn [fst snd]. rewrite Hw. now left. }
    rewrite Hnil in Hin. contradiction.
Qed.

(** C4: when vectors [v :: rest] were collected for a speaker, the run
    returns, the speaker's fingerprint has in every dimension the sum of the
    collected components divided by their number, and the count the run
    reports for the speaker is the number of vectors averaged.  For three
    vectors the component is [(v1 + v2 + v3) / 3]. *)
Theorem fingerprint_is_mean (D : nat) (words : list Word) (s : string)
    (v : list F) (rest : list (list F)) :
  world_dim world D ->
  s <> UNKNOWN ->
  speaker_vectors world s (speaker_spans words s) = v :: rest ->
  exists embs trace fp,
    create_speaker_embeddings world words = Ok (embs, trace) /\
    dict_get embs s = Some fp /\
    is_mean D (v :: rest) fp /\
    filter (is_created_of s) trace = [EvCreated s (length (v :: rest))] /\
    (forall v2 v3, rest = [v2; v3] ->
       forall k, k < D ->
         nth k fp fzero =
         fdiv (fadd (fadd (nth k v fzero) (nth k v2 fzero)) (nth k v3 fzero))
              (of_count 3)).
Proof.
  intros Hdim Hs Hvs.
  destruct (create_speaker_embeddings_spec D words Hdim)
    as (embs & Hrun & _ & Hget).
  apply String.eqb_neq in Hs.
  assert (Hmean : is_mean D (v :: rest) (mean_rows v rest)).
  { apply mean_rows_is_mean. rewrite <- Hvs. now apply collected_dim. }
  eexists embs, _, (mean_rows v rest). split; [exact Hrun|].
  split; [|split; [|split]].
  - now rewrite Hget, Hs, Hvs.
  - exact Hmean.
  - now rewrite run_created_events, Hs, Hvs.
  - intros v2 v3 -> k Hk. destruct Hmean as [_ Hk']. now rewrite Hk'.
Qed.

(** C6: an utterance whose extraction or encoding fails is skipped and the
    utterances after it are still processed, under their own indices: the
    run returns, and the speaker's fingerprint is the one made of the
    vectors of the other utterances.  When two vectors remain (one failure
    among three utterances), the fingerprint is their mean and the reported
    count is 2. *)
Theorem failed_utterance_is_skipped (D : nat) (words : list Word)
    (s : string) :
  world_dim world D ->
  s <> UNKNOWN ->
  exists embs trace,
    create_speaker_embeddings world words = Ok (embs, trace) /\
    forall before u after,
      utterances (speaker_spans words s) = before ++ u :: after ->
      is_failure (world s (length before) u) ->
      let others :=
        collected world s (enumerate before)
        ++ collected world s (enumerate_from (S (length before)) after) in
      dict_get embs s = fingerprint_of others /\
      forall va vb, others = [va; vb] ->
        exists fp,
          dict_get embs s = Some fp /\
          is_mean D [va; vb] fp /\
          filter (is_created_of s) trace = [EvCreated s 2].
Proof.
  intros Hdim Hs.
  destruct (create_speaker_embeddings_spec D words Hdim)
    as (embs & Hrun & _ & Hget).
  apply String.eqb_neq in Hs.
  eexists embs, _. split; [exact Hrun|].
  intros before u after Hus Hfail others.
  assert (Hvs : speaker_vectors world s (speaker_spans words s) = others).
  { unfold speaker_vectors, others, enumerate. rewrite Hus.
    rewrite enumerate_from_app. cbn [enumerate_from].
    unfold collected. rewrite flat_map_app. cbn [flat_map fst snd].
    unfold is_failure in Hfail. rewrite Nat.add_0_l, Hfail. reflexivity. }
  split.
  - now rewrite Hget, Hs, Hvs.
  - intros va vb Hab. exists (mean_rows va [vb]). split; [|split].
    + now rewrite Hget, Hs, Hvs, Hab.
    + apply mean_rows_is_mean. rewrite <- Hab, <- Hvs. now apply collected_dim.
    + now rewrite run_created_events, Hs, Hvs, Hab.
Qed.

(** C7: the keys of the fingerprint map are the speakers other than the
    unknown sentinel for which at least one selected utterance was extracted
    and encoded; every value in the map is the mean of a non-empty list of
    collected vectors. *)
Theorem fingerprint_keys (D : nat) (words : list Word) :
  world_dim world D ->
  exists embs trace,
    create_speaker_embeddings world words = Ok (embs, trace) /\
    dict_wf embs /\
    (forall s,
       In s (dict_keys embs) <->
       s <> UNKNOWN /\
       exists i u v,
         nth_error (utterances (speaker_spans words s)) i = Some u /\
         world s i u = Embedded v) /\
    (forall s fp,
       dict_get embs s = Some fp ->
       exists v rest,
         speaker_vectors world s (speaker_spans words s) = v :: rest /\
         is_mean D (v :: rest) fp).
Proof.
  intros Hdim.
  destruct (create_speaker_embeddings_spec D words Hdim)
    as (embs & Hrun & Hwf & Hget).
  eexists embs, _. split; [exact Hrun|]. split; [exact Hwf|]. split.
  - intros s. rewrite <- collected_nonempty.
    fold (speaker_vectors world s (speaker_spans words s)).
    pose proof (dict_get_None embs s) as Hnone. rewrite Hget in Hnone.
    destruct (String.eqb s UNKNOWN) eqn:E.
    + apply String.eqb_eq in E. split.
      * intros Hin. exfalso. now apply (proj1 Hnone).
      * tauto.
    + apply String.eqb_neq in E.
      destruct (speaker_vectors world s (speaker_spans words s)) eqn:Ev;
        cbn [fingerprint_of] in Hnone.
      * split; [intros Hin; exfalso; now apply (proj1 Hnone) | tauto].
      * split; [intros _; split; [exact E | discriminate] |].
        intros _. destruct (in_dec string_dec s (dict_keys embs)); auto.
        apply Hnone in n. discriminate.
  - intros s fp Hfp. rewrite Hget in Hfp.
    destruct (String.eqb s UNKNOWN); [discriminate|].
    destruct (speaker_vectors world s (speaker_spans words s)) as [|v rest] eqn:Ev;
      [discriminate|].
    injection Hfp as <-. exists v, rest. split; auto.
    apply mean_rows_is_mean. rewrite <- Ev. now apply collected_dim.
Qed.

(** C9: a speaker's spans after the tenth have no effect on its step of
    the run, and the extractor is called for exactly the first five merged
    utterances of the speaker's first ten spans, hence at most five
    times. *)
Theorem sample_caps (D : nat) (words : list Word) :
  world_dim world D ->
  (forall st s segments,
     length (firstn 10 segments) <= 10 /\
     speaker_step world st (s, segments) =
     speaker_step world st (s, firstn 10 segments)) /\
  exists embs trace,
    create_speaker_embeddings world words = Ok (embs, trace) /\
    filter (is_extract_of UNKNOWN) trace = [] /\
    forall s,
      s <> UNKNOWN ->
      filter (is_extract_of s) trace =
      map (extract_event s)
        (enumerate
           (firstn 5 (merge_segments (firstn 10 (speaker_spans words s))))) /\
      length (filter (is_extract_of s) trace) <= 5.
Proof.
  intros Hdim. split.
  - intros [embs tr] s segments. split.
    + rewrite length_firstn. lia.
    + unfold speaker_step, max_sample_segments.
      rewrite firstn_firstn. reflexivity.
  - destruct (create_speaker_embeddings_spec D words Hdim)
      as (embs & Hrun & _ & _).
    eexists embs, _. split; [exact Hrun|]. split.
    + now rewrite run_extract_events, String.eqb_refl.
    + intros s Hs. apply String.eqb_neq in Hs.
      rewrite run_extract_events, Hs. split; [reflexivity|].
      rewrite length_map. unfold enumerate.
      rewrite enumerate_from_length. unfold utterances, max_merged_segments.
      rewrite length_firstn. lia.
Qed.

End AggregatorProps.

(** Twelve spans that do not merge: ten are sampled, five are extracted. *)
Example create_speaker_embeddings_caps :
  length (speaker_spans many_words "S1") = 12 /\
  length (merge_segments (firstn 10 (speaker_spans many_words "S1"))) = 10 /\
  length (merge_segments (speaker_spans many_words "S1")) = 12 /\
  match create_speaker_embeddings clean_world many_words with
  | Ok (_, trace) =>
      filter (is_extract_of "S1") trace =
      [EvExtract "S1" 0 0 1000; EvExtract "S1" 1 2000 3000;
       EvExtract "S1" 2 4000 5000; EvExtract "S1" 3 6000 7000;
       EvExtract "S1" 4 8000 9000]
  | Raise _ => False
  end.
Proof. repeat split. Qed.

(** The spec's aggregation examples, in binary64. *)
Example create_speaker_embeddings_clean :
  create_speaker_embeddings clean_world sample_words =
  Ok ([("S1", [1 / 3; 1 / 3; 1 / 3]%float)],
      [EvCreating; EvFound 2;
       EvExtract "S1" 0 0 900; EvExtract "S1" 1 2000 3000;
       EvExtract "S1" 2 5000 6000; EvCreated "S1" 3;
       EvNoValidSegments "S2"]).
Proof. reflexivity. Qed.

Example create_speaker_embeddings_faulty :
  create_speaker_embeddings faulty_world sample_words =
  Ok ([("S1", [0.5; 0; 0.5]%float)],
      [EvCreating; EvFound 2;
       EvExtract "S1" 0 0 900; EvExtract "S1" 1 2000 3000;
       EvExtract "S1" 2 5000 6000; EvCreated "S1" 2;
       EvNoValidSegments "S2"]).
Proof. reflexivity. Qed.

Lemma clean_world_dim : world_dim clean_world 3.
Proof.
  intros s i seg e H. unfold clean_world in H.
  destruct i as [|[|i]]; injection H as <-; reflexivity.
Qed.

Lemma faulty_world_dim : world_dim faulty_world 3.
Proof.
  intros s i seg e H. unfold faulty_world in H.
  destruct i as [|[|i]]; try discriminate; injection H as <-; reflexivity.
Qed.

Lemma S1_not_unknown : "S1" <> UNKNOWN.
Proof. discriminate. Qed.

Lemma fingerprint_is_mean_witness :
  world_dim clean_world 3 /\ "S1" <> UNKNOWN /\
  speaker_vectors clean_world "S1" (speaker_spans sample_words "S1") =
    [1; 0; 0]%float :: [[0; 1; 0]; [0; 0; 1]]%float /\
  exists embs trace fp,
    create_speaker_embeddings clean_world sample_words = Ok (embs, trace) /\
    dict_get embs "S1" = Some fp /\
    is_mean 3 ([1; 0; 0]%float :: [[0; 1; 0]; [0; 0; 1]]%float) fp /\
    filter (is_created_of "S1") trace = [EvCreated "S1" 3] /\
    (forall v2 v3, [[0; 1; 0]; [0; 0; 1]]%float = [v2; v3] ->
       forall k, k < 3 ->
         nth k fp fzero =
         fdiv (fadd (fadd (nth k [1; 0; 0]%float fzero) (nth k v2 fzero))
                 (nth k v3 fzero))
              (of_count 3)).
Proof.
  split; [exact clean_world_dim|]. split; [exact S1_not_unknown|].
  split; [reflexivity|].
  exact (fingerprint_is_mean clean_world 3 sample_words "S1" _ _
           clean_world_dim S1_not_unknown eq_refl).
Defined.

Lemma failed_utterance_is_skipped_witness :
  world_dim faulty_world 3 /\ "S1" <> UNKNOWN /\
  exists embs trace,
    create_speaker_embeddings faulty_world sample_words = Ok (embs, trace) /\
    forall before u after,
      utterances (speaker_spans sample_words "S1") = before ++ u :: after ->
      is_failure (faulty_world "S1" (length before) u) ->
      let others :=
        collected faulty_world "S1" (enumerate before)
        ++ collected faulty_world "S1" (enumerate_from (S (length before)) after) in
      dict_get embs "S1" = fingerprint_of others /\
      forall va vb, others = [va; vb] ->
        exists fp,
          dict_get embs "S1" = Some fp /\
          is_mean 3 [va; vb] fp /\
          filter (is_created_of "S1") trace = [EvCreated "S1" 2].
Proof.
  split; [exact faulty_world_dim|]. split; [exact S1_not_unknown|].
  exact (failed_utterance_is_skipped faulty_world 3 sample_words "S1"
           faulty_world_dim S1_not_unknown).
Defined.

Lemma fingerprint_keys_witness :
  world_dim faulty_world 3 /\
  exists embs trace,
    create_speaker_embeddings faulty_world sample_words = Ok (embs, trace) /\
    dict_wf embs /\
    (forall s,
       In s (dict_keys embs) <->
       s <> UNKNOWN /\
       exists i u v,
         nth_error (utterances (speaker_spans sample_words s)) i = Some u /\
         faulty_world s i u = Embedded v) /\
    (forall s fp,
       dict_get embs s = Some fp ->
       exists v rest,
         speaker_vectors faulty_world s (speaker_spans sample_words s) = v :: rest /\
         is_mean 3 (v :: rest) fp).
Proof.
  split; [exact faulty_world_dim|].
  exact (fingerprint_keys faulty_world 3 sample_words faulty_world_dim).
Defined.

Lemma sample_caps_witness :
  world_dim clean_world 3 /\
  (forall st s segments,
     length (firstn 10 segments) <= 10 /\
     speaker_step clean_world st (s, segments) =
     speaker_step clean_world st (s, firstn 10 segments)) /\
  exists embs trace,
    create_speaker_embeddings clean_world many_words = Ok (embs, trace) /\
    filter (is_extract_of UNKNOWN) trace = [] /\
    forall s,
      s <> UNKNOWN ->
      filter (is_extract_of s) trace =
      map (extract_event s)
        (enumerate
           (firstn 5 (merge_segments (firstn 10 (speaker_spans many_words s))))) /\
      length (filter (is_extract_of s) trace) <= 5.
Proof.
  split; [exact clean_world_dim|].
  exact (sample_caps clean_world 3 many_words clean_world_dim).
Defined.

(** ** SimilarityScorer *)

Lemma dict_set_fresh {V : Type} (d : dict V) (k : string) (v : V) :
  ~ In k (dict_keys d) -> dict_set d k v = d ++ [(k, v)].
Proof.
  induction d as [|[k' v'] d IH]; simpl; intros Hk; auto.
  destruct (String.eqb k k') eqn:E.
  - apply String.eqb_eq in E. subst k'. exfalso. apply Hk. now left.
  - rewrite IH; [reflexivity|]. intros H. apply Hk. now right.
Qed.

Lemma dict_set_set {V : Type} (d : dict V) (k : string) (v v' : V) :
  dict_set (dict_set d k v) k v' = dict_set d k v'.
Proof.
  induction d as [|[k0 v0] d IH]; simpl.
  - now rewrite String.eqb_refl.
  - destruct (String.eqb k k0) eqn:E; simpl; rewrite E; congruence.
Qed.

Lemma dict_set_same {V : Type} (d : dict V) (k : string) (v : V) :
  dict_get d k = Some v -> dict_set d k v = d.
Proof.
  induction d as [|[k0 v0] d IH]; simpl; [discriminate|].
  destruct (String.eqb k k0).
  - now intros [= ->].
  - intros H. now rewrite IH.
Qed.

Lemma dict_get_map {V W : Type} (g : V -> W) (d : dict V) (k : string) :
  dict_get (map (fun kv => (fst kv, g (snd kv))) d) k =
  option_map g (dict_get d k).
Proof.
  induction d as [|[k' v'] d IH]; simpl; auto.
  now destruct (String.eqb k k').
Qed.

Lemma dict_keys_map {V W : Type} (g : V -> W) (d : dict V) :
  dict_keys (map (fun kv => (fst kv, g (snd kv))) d) = dict_keys d.
Proof. unfold dict_keys. rewrite map_map. reflexivity. Qed.

Section ScorerProps.
Context {F : Type} {AF : Arith F} {DK : DotKernel F}.

Lemma cosine_similarity_ok (a b : list F) :
  length a = length b -> cosine_similarity a b = Ok (cosine a b).
Proof.
  intros H. unfold cosine_similarity, np_dot.
  apply Nat.eqb_eq in H. now rewrite H.
Qed.

Lemma compare_inner_loop (D : nat) (speaker1 : string) (emb1 : list F) :
  length emb1 = D ->
  forall (items2 : dict (list F)) (similarities : dict (dict F))
         (row0 : dict F),
    dict_wf items2 -> all_dim D items2 ->
    (forall k, In k (dict_keys items2) -> ~ In k (dict_keys row0)) ->
    dict_get similarities speaker1 = Some row0 ->
    for_each items2 (compare_inner speaker1 emb1) similarities =
    Ok (dict_set similarities speaker1 (row0 ++ expected_row emb1 items2)).
Proof.
  intros Hlen.
  induction items2 as [|[speaker2 emb2] items2 IH];
    intros similarities row0 Hwf Hdim Hfresh Hrow.
  - simpl. rewrite app_nil_r. now rewrite dict_set_same.
  - apply NoDup_cons_iff in Hwf. destruct Hwf as [Hnotin Hwf'].
    pose proof (Forall_inv Hdim) as Hd. simpl in Hd.
    pose proof (Forall_inv_tail Hdim) as Hdim'.
    cbn [for_each compare_inner].
    rewrite cosine_similarity_ok by congruence. cbn [bind].
    unfold set_score. rewrite Hrow.
    rewrite (dict_set_fresh row0 speaker2) by (apply Hfresh; now left).
    rewrite (IH _ (row0 ++ [(speaker2, cosine emb1 emb2)])); auto.
    + rewrite dict_set_set. cbn [expected_row map fst snd].
      now rewrite <- app_assoc.
    + intros k Hk. unfold dict_keys. rewrite map_app, in_app_iff.
      intros [H|[H|[]]].
      * apply (Hfresh k); [now right | exact H].
      * simpl in H. subst k. contradiction.
    + apply dict_get_set_eq.
Qed.

Lemma compare_outer_loop (D : nat) (embeddings2 : dict (list F)) :
  dict_wf embeddings2 -> all_dim D embeddings2 ->
  forall (items1 : dict (list F)) (similarities : dict (dict F)),
    dict_wf items1 -> all_dim D items1 ->
    (forall k, In k (dict_keys items1) -> ~ In k (dict_keys similarities)) ->
    for_each items1 (compare_outer embeddings2) similarities =
    Ok (similarities ++ expected_table items1 embeddings2).
Proof.
  intros Hwf2 Hdim2.
  induction items1 as [|[speaker1 emb1] items1 IH];
    intros similarities Hwf Hdim Hfresh.
  - simpl. now rewrite app_nil_r.
  - apply NoDup_cons_iff in Hwf. destruct Hwf as [Hnotin Hwf'].
    pose proof (Forall_inv Hdim) as Hd. simpl in Hd.
    pose proof (Forall_inv_tail Hdim) as Hdim'.
    assert (Hk : ~ In speaker1 (dict_keys similarities))
      by (apply Hfresh; now left).
    cbn [for_each compare_outer].
    rewrite (compare_inner_loop D speaker1 emb1 Hd embeddings2 _ []
               Hwf2 Hdim2 (fun k _ H => H) (dict_get_set_eq _ _ _)).
    cbn [bind app]. rewrite dict_set_set, dict_set_fresh by assumption.
    rewrite IH; auto.
    + cbn [expected_table map fst snd]. now rewrite <- app_assoc.
    + intros k Hk1. unfold dict_keys. rewrite map_app, in_app_iff.
      intros [H|[H|[]]].
      * apply (Hfresh k); [now right | exact H].
      * simpl in H. subst k. contradiction.
Qed.

(** On fingerprints of one dimension [compare_speakers] returns the table
    of all cosine similarities, rows and columns in the order of the two
    fingerprint sets. *)
Lemma compare_speakers_expected (D : nat)
    (embeddings1 embeddings2 : dict (list F)) :
  dict_wf embeddings1 -> dict_wf embeddings2 ->
  all_dim D embeddings1 -> all_dim D embeddings2 ->
  compare_speakers embeddings1 embeddings2 =
  Ok (expected_table embeddings1 embeddings2).
Proof.
  intros Hwf1 Hwf2 Hd1 Hd2. unfold compare_speakers.
  rewrite (compare_outer_loop D); auto.
Qed.

End ScorerProps.

(** * Further properties of the code *)

(** ** Merging of spans *)

Lemma start_le_trans : Relations_1.Transitive start_le.
Proof. intros a b c Hab Hbc. unfold start_le in *. lia. Qed.

Lemma sorted_by_start_strongly (l : list Segment) :
  StronglySorted start_le (sorted_by_start l).
Proof.
  apply Sorted_StronglySorted.
  - exact start_le_trans.
  - apply sorted_by_start_sorted.
Qed.

Lemma StronglySorted_snoc {A : Type} (R : A -> A -> Prop) (l : list A) (x : A) :
  StronglySorted R l -> Forall (fun y => R y x) l ->
  StronglySorted R (l ++ [x]).
Proof.
  induction l as [|y l IH]; intros Hs Hall; simpl.
  - repeat constructor.
  - inversion Hs as [|? ? Hs' Hy]; subst.
    inversion Hall as [|? ? Hyx Hall']; subst.
    constructor; auto.
    apply Forall_app. split; auto.
Qed.

Lemma merge_step_inv (st : list Segment * option Segment) (seg : Segment)
    (rest : list Segment) :
  StronglySorted start_le (seg :: rest) ->
  merge_inv st (seg :: rest) -> merge_inv (merge_step st seg) rest.
Proof.
  intros Hsorted. inversion Hsorted as [|? ? Hrest Hseg]; subst.
  destruct st as [merged [c|]]; unfold merge_inv, merge_step.
  - intros (Hlong & Hgap & Hc & Hnext).
    inversion Hnext as [|? ? Hcs Hnext']; subst.
    destruct (seg_start seg - seg_end c <? gap_merge_threshold_ms)%Z eqn:E.
    + repeat split; auto.
    + assert (Hgc : gap_before c seg) by (unfold gap_before; lia).
      assert (Hall : Forall (fun u => gap_before u seg) merged).
      { eapply Forall_impl; [|exact Hc]. intros u Hu.
        unfold gap_before, start_le in *. lia. }
      destruct (long_enough c) eqn:El.
      * repeat split; auto.
        -- apply Forall_app. split; auto.
        -- now apply StronglySorted_snoc.
        -- apply Forall_app. split; auto.
      * repeat split; auto.
  - intros (Hlong & Hgap & ->). repeat split; auto.
Qed.

Lemma fold_merge_inv (items : list Segment) :
  forall st,
    StronglySorted start_le items -> merge_inv st items ->
    merge_inv (fold_left merge_step items st) [].
Proof.
  induction items as [|seg items IH]; intros st Hs Hinv; simpl; auto.
  apply IH.
  - now inversion Hs.
  - now apply merge_step_inv.
Qed.

Lemma merge_segments_inv (l : list Segment) :
  Forall (fun u => long_enough u = true) (merge_segments l) /\
  StronglySorted gap_before (merge_segments l).
Proof.
  unfold merge_segments.
  pose proof (fold_merge_inv (sorted_by_start l) ([], None)
                (sorted_by_start_strongly l)) as H.
  destruct (fold_left merge_step (sorted_by_start l) ([], None))
    as [merged [c|]].
  - destruct H as (Hlong & Hgap & Hc & _).
    { repeat split; constructor. }
    destruct (long_enough c) eqn:El; auto.
    split.
    + apply Forall_app. split; auto.
    + now apply StronglySorted_snoc.
  - destruct H as (Hlong & Hgap & _); auto.
    repeat split; constructor.
Qed.

(** Every utterance that [merge_segments] returns lasts more than the
    minimum duration, and any later utterance of the result starts at least
    the merge threshold after an earlier one ends: the utterances are in
    start order and do not overlap. *)
Theorem merge_segments_long_and_separated (l : list Segment) :
  Forall (fun u => (seg_end u - seg_start u > 500)%Z) (merge_segments l) /\
  StronglySorted (fun u u' => (seg_start u' - seg_end u >= 500)%Z)
    (merge_segments l) /\
  StronglySorted (fun u u' => (seg_start u < seg_start u')%Z)
    (merge_segments l).
Proof.
  destruct (merge_segments_inv l) as [Hlong Hgap].
  assert (Hlong' : Forall (fun u => (seg_end u - seg_start u > 500)%Z)
                     (merge_segments l)).
  { eapply Forall_impl; [|exact Hlong]. intros u Hu.
    unfold long_enough, min_utterance_duration_ms in Hu. lia. }
  split; [exact Hlong'|]. split; [exact Hgap|].
  induction Hgap as [|u us Hs IH Hall]; [constructor|].
  inversion Hlong' as [|? ? Hu Hus]; subst.
  constructor.
  - apply IH; auto. now inversion Hlong.
  - eapply Forall_impl; [|exact Hall]. intros u' Hu'.
    unfold gap_before, gap_merge_threshold_ms in Hu'. lia.
Qed.

Lemma sorted_by_start_fixed (l : list Segment) :
  StronglySorted start_le l -> sorted_by_start l = l.
Proof.
  induction 1 as [|x l Hs IH Hall]; simpl; auto.
  rewrite IH. destruct l as [|y l]; simpl; auto.
  inversion Hall as [|? ? Hxy _]; subst. unfold start_le in Hxy.
  destruct (seg_start x <=? seg_start y)%Z eqn:E; auto. lia.
Qed.

Lemma merge_pass_separated (l : list Segment) :
  forall merged c,
    Forall (fun u => long_enough u = true) (c :: l) ->
    StronglySorted gap_before (c :: l) ->
    (let '(merged_segments, current) :=
       fold_left merge_step l (merged, Some c) in
     match current with
     | Some cur => if long_enough cur then merged_segments ++ [cur]
                   else merged_segments
     | None => merged_segments
     end) = merged ++ c :: l.
Proof.
  induction l as [|s l IH]; intros merged c Hlong Hgap.
  - simpl. inversion Hlong as [|? ? Hc _]; subst. now rewrite Hc.
  - inversion Hlong as [|? ? Hc Hlong']; subst.
    inversion Hgap as [|? ? Hgap' Hall]; subst.
    inversion Hall as [|? ? Hcs _]; subst.
    cbn [fold_left merge_step].
    replace (seg_start s - seg_end c <? gap_merge_threshold_ms)%Z with false
      by (symmetry; apply Z.ltb_ge; unfold gap_before in Hcs; lia).
    rewrite Hc, IH by assumption.
    now rewrite <- app_assoc.
Qed.

Lemma merge_segments_fixed (l : list Segment) :
  Forall (fun u => long_enough u = true) l ->
  StronglySorted gap_before l ->
  merge_segments l = l.
Proof.
  intros Hlong Hgap.
  assert (Hsorted : StronglySorted start_le l).
  { clear - Hlong Hgap.
    induction Hgap as [|u us Hs IH Hall]; [constructor|].
    inversion Hlong as [|? ? Hu Hus]; subst.
    constructor; auto.
    eapply Forall_impl; [|exact Hall]. intros u' Hu'.
    unfold gap_before, gap_merge_threshold_ms, start_le, long_enough,
      min_utterance_duration_ms in *. lia. }
  unfold merge_segments. rewrite (sorted_by_start_fixed l Hsorted).
  destruct l as [|c l]; [reflexivity|].
  cbn [fold_left merge_step].
  exact (merge_pass_separated l [] c Hlong Hgap).
Qed.

(** Merging is idempotent: the utterances that [merge_segments] returns
    are left as they are when they are merged again. *)
Theorem merge_segments_idempotent (l : list Segment) :
  merge_segments (merge_segments l) = merge_segments l.
Proof.
  destruct (merge_segments_inv l) as [Hlong Hgap].
  now apply merge_segments_fixed.
Qed.

Lemma fold_merge_step_endpoints (l items : list Segment) :
  forall merged current,
    (forall x, In x items -> In x l) ->
    Forall (endpoints_from l) merged ->
    (forall c, current = Some c -> endpoints_from l c) ->
    Forall (endpoints_from l) (fst (fold_left merge_step items (merged, current))) /\
    (forall c, snd (fold_left merge_step items (merged, current)) = Some c ->
               endpoints_from l c).
Proof.
  induction items as [|seg items IH]; intros merged current Hin Hm Hc.
  - simpl. auto.
  - assert (Hseg : endpoints_from l seg).
    { split; exists seg; split; auto; apply Hin; now left. }
    cbn [fold_left merge_step].
    destruct current as [c|].
    + specialize (Hc c eq_refl).
      destruct (seg_start seg - seg_end c <? gap_merge_threshold_ms)%Z.
      * apply IH; auto.
        -- intros x Hx. apply Hin. now right.
        -- intros c' [= <-]. destruct Hc as [Hs _], Hseg as [_ He].
           split; assumption.
      * apply IH.
        -- intros x Hx. apply Hin. now right.
        -- destruct (long_enough c); auto.
           apply Forall_app. split; auto.
        -- now intros c' [= <-].
    + apply IH; auto.
      * intros x Hx. apply Hin. now right.
      * now intros c' [= <-].
Qed.

(** The start of every utterance is the start of one of the given spans
    and its end is the end of one of them: merging never invents a time. *)
Theorem merge_segments_endpoints (l : list Segment) :
  Forall (endpoints_from l) (merge_segments l).
Proof.
  unfold merge_segments.
  destruct (fold_merge_step_endpoints l (sorted_by_start l) [] None) as [Hm Hc].
  - intros x Hx. eapply Permutation_in; [|exact Hx].
    apply Permutation_sym, sorted_by_start_perm.
  - constructor.
  - discriminate.
  - destruct (fold_left merge_step (sorted_by_start l) ([], None))
      as [merged [c|]]; simpl in *; auto.
    destruct (long_enough c); auto.
    apply Forall_app. split; auto.
Qed.

Lemma last_cons_indep {A : Type} (l : list A) :
  forall x d d', last (x :: l) d = last (x :: l) d'.
Proof.
  induction l as [|y l IH]; intros x d d'; [reflexivity|].
  change (last (y :: l) d = last (y :: l) d'). apply IH.
Qed.

Lemma fold_merge_step_chain (l : list Segment) :
  forall merged cur,
    Sorted gap_small (cur :: l) ->
    fold_left merge_step l (merged, Some cur) =
    (merged, Some (chain_utterance cur l)).
Proof.
  induction l as [|s l IH]; intros merged cur Hs.
  - simpl. now destruct cur.
  - inversion Hs as [|? ? Hs' Hhd]; subst.
    inversion Hhd as [|? ? Hcs]; subst. unfold gap_small in Hcs.
    cbn [fold_left merge_step].
    apply Z.ltb_lt in Hcs. rewrite Hcs.
    rewrite IH.
    + unfold chain_utterance, joined_text. cbn [seg_start seg_text fold_left].
      f_equal. f_equal. f_equal.
      destruct l as [|s' l]; [reflexivity|].
      cbn [last]. f_equal. apply last_cons_indep.
    + inversion Hs' as [|? ? Hs'' Hhd']; subst.
      constructor; auto.
      destruct l as [|s' l]; constructor.
      inversion Hhd' as [|? ? Hss']; subst.
      unfold gap_small in *. exact Hss'.
Qed.

(** A chain of spans, each starting less than the merge threshold after the
    span before it ends, is merged into one utterance that runs from the
    start of the first span to the end of the last one (whether or not an
    earlier span ends later), with the texts joined by spaces; it is kept if
    that duration exceeds the minimum and dropped otherwise. *)
Theorem merge_segments_chain (c : Segment) (l : list Segment) :
  StronglySorted start_le (c :: l) ->
  Sorted gap_small (c :: l) ->
  merge_segments (c :: l) =
  if long_enough (chain_utterance c l) then [chain_utterance c l] else [].
Proof.
  intros Hsorted Hchain. unfold merge_segments.
  rewrite (sorted_by_start_fixed _ Hsorted).
  cbn [fold_left merge_step].
  now rewrite (fold_merge_step_chain l [] c Hchain).
Qed.

Lemma start_le_lt_strongly (l : list Segment) :
  StronglySorted start_le l -> NoDup (map seg_start l) ->
  StronglySorted start_lt l.
Proof.
  induction 1 as [|x l Hs IH Hall]; intros Hnd; [constructor|].
  inversion Hnd as [|? ? Hx Hnd']; subst.
  constructor; auto.
  rewrite Forall_forall in *. intros y Hy.
  specialize (Hall y Hy). unfold start_le, start_lt in *.
  assert (seg_start x <> seg_start y).
  { intros Heq. apply Hx. rewrite Heq. now apply in_map. }
  lia.
Qed.

Lemma strictly_sorted_perm_eq (a : list Segment) :
  forall b,
    Permutation a b -> StronglySorted start_lt a -> StronglySorted start_lt b ->
    a = b.
Proof.
  induction a as [|x a IH]; intros b Hp Ha Hb.
  - apply Permutation_nil in Hp. now subst.
  - destruct b as [|y b].
    + apply Permutation_sym, Permutation_nil in Hp. discriminate.
    + inversion Ha as [|? ? Ha' Hxa]; subst.
      inversion Hb as [|? ? Hb' Hyb]; subst.
      assert (Hxy : x = y).
      { assert (Hx : In x (y :: b))
          by (eapply Permutation_in; [exact Hp | now left]).
        assert (Hy : In y (x :: a))
          by (eapply Permutation_in; [apply Permutation_sym; exact Hp | now left]).
        destruct Hx as [Hx|Hx]; [now subst|].
        destruct Hy as [Hy|Hy]; [now subst|].
        rewrite Forall_forall in Hxa, Hyb.
        specialize (Hxa y Hy). specialize (Hyb x Hx).
        unfold start_lt in *. lia. }
      subst y. f_equal. apply IH; auto.
      eapply Permutation_cons_inv. exact Hp.
Qed.

(** For spans with pairwise distinct start times the utterances do not
    depend on the order in which the spans are listed. *)
Theorem merge_segments_order_independent (l l' : list Segment) :
  Permutation l l' ->
  NoDup (map seg_start l) ->
  merge_segments l = merge_segments l'.
Proof.
  intros Hp Hnd. unfold merge_segments.
  replace (sorted_by_start l') with (sorted_by_start l); [reflexivity|].
  apply strictly_sorted_perm_eq.
  - rewrite <- (sorted_by_start_perm l), <- (sorted_by_start_perm l').
    exact Hp.
  - apply start_le_lt_strongly; [apply sorted_by_start_strongly|].
    eapply Permutation_NoDup; [|exact Hnd].
    apply Permutation_map, sorted_by_start_perm.
  - apply start_le_lt_strongly; [apply sorted_by_start_strongly|].
    eapply Permutation_NoDup; [|exact Hnd].
    apply Permutation_map.
    rewrite <- (sorted_by_start_perm l'). exact Hp.
Qed.

(** ** Grouping by speaker *)

Lemma dict_mem_existsb {V : Type} (d : dict V) (k : string) :
  dict_mem d k = existsb (String.eqb k) (dict_keys d).
Proof.
  unfold dict_mem. induction d as [|[k' v] d IH]; simpl; auto.
  destruct (String.eqb k k'); auto.
Qed.

Lemma group_step_keys (acc : dict (list Segment)) (word : Word) :
  dict_keys (group_step acc word) =
  if known word
  then if existsb (String.eqb (speaker_of word)) (dict_keys acc)
       then dict_keys acc
       else dict_keys acc ++ [speaker_of word]
  else dict_keys acc.
Proof.
  unfold group_step, known. fold (speaker_of word).
  destruct (String.eqb (speaker_of word) UNKNOWN); cbn [negb]; auto.
  rewrite dict_keys_set. rewrite <- dict_mem_existsb.
  destruct (dict_mem acc (speaker_of word)) eqn:E.
  - now rewrite E.
  - unfold dict_mem at 1. rewrite dict_get_set_eq.
    rewrite dict_keys_set, E. reflexivity.
Qed.

Lemma fold_group_step_keys (words : list Word) :
  forall acc,
    dict_keys (fold_left group_step words acc) =
    fold_left
      (fun seen s => if existsb (String.eqb s) seen then seen else seen ++ [s])
      (map speaker_of (filter known words)) (dict_keys acc).
Proof.
  induction words as [|w words IH]; intros acc; simpl; auto.
  rewrite IH, group_step_keys.
  destruct (known w); reflexivity.
Qed.

Lemma group_words_groups (words : list Word) (s : string)
    (segments : list Segment) :
  In (s, segments) (group_words words) ->
  segments = speaker_spans words s /\ segments <> [].
Proof.
  intros Hin.
  apply (dict_In_get _ _ _ (group_words_wf words)) in Hin.
  rewrite group_words_get in Hin.
  destruct (String.eqb s UNKNOWN); [discriminate|].
  destruct (speaker_spans words s) eqn:E; [discriminate|].
  injection Hin as <-. split; [reflexivity | discriminate].
Qed.

Lemma group_words_first_seen (words : list Word) :
  dict_keys (group_words words) =
  first_seen (map speaker_of (filter known words)).
Proof.
  unfold group_words, first_seen. now rewrite fold_group_step_keys.
Qed.

(** The groups are keyed by the speaker labels other than the sentinel, in
    order of first occurrence in the word list; the sentinel is never a key,
    and the group of a speaker holds the spans of all its words, so no group
    is empty. *)
Theorem group_words_keys (words : list Word) :
  dict_keys (group_words words) =
    first_seen (map speaker_of (filter known words)) /\
  ~ In UNKNOWN (dict_keys (group_words words)) /\
  forall s segments,
    In (s, segments) (group_words words) ->
    segments = speaker_spans words s /\ segments <> [].
Proof.
  split; [|split].
  - apply group_words_first_seen.
  - apply dict_get_None. rewrite group_words_get.
    now rewrite String.eqb_refl.
  - apply group_words_groups.
Qed.

Lemma group_words_known (words : list Word) :
  group_words (filter known words) = group_words words.
Proof.
  unfold group_words. generalize (@nil (string * list Segment)).
  induction words as [|w words IH]; intros acc; simpl; auto.
  destruct (known w) eqn:E; simpl.
  - apply IH.
  - rewrite IH. f_equal. unfold group_step, known in *.
    fold (speaker_of w).
    destruct (String.eqb (speaker_of w) UNKNOWN); [reflexivity|discriminate].
Qed.

(** Words that carry the sentinel label, or no label, have no effect on
    the run: without them the fingerprints and the trace are the same. *)
Theorem unknown_words_ignored {F : Type} {AF : Arith F} (world : World F)
    (words : list Word) :
  create_speaker_embeddings world (filter known words) =
  create_speaker_embeddings world words.
Proof.
  unfold create_speaker_embeddings. now rewrite group_words_known.
Qed.

(** ** The run over all speakers *)

Section RunProps.
Context {F : Type} {AF : Arith F}.
Variable world : World F.

Lemma fingerprints_keys_fresh (items : dict (list Segment)) (k : string) :
  ~ In k (dict_keys items) -> ~ In k (dict_keys (fingerprints world items)).
Proof.
  unfold fingerprints, dict_keys. intros Hk Hin.
  apply in_map_iff in Hin. destruct Hin as ([k' fp] & Hfst & Hin).
  simpl in Hfst. subst k'.
  apply in_flat_map in Hin. destruct Hin as ([s segs] & Hit & Hfp).
  cbn [fst snd] in Hfp.
  destruct (fingerprint_of (speaker_vectors world s segs)); [|contradiction].
  destruct Hfp as [[= <- _]|[]].
  apply Hk. change s with (fst (s, segs)). now apply in_map.
Qed.

Lemma for_each_speaker_step_list (D : nat) :
  world_dim world D ->
  forall (items : dict (list Segment)) (embs0 : dict (list F))
         (tr0 : list Event),
    dict_wf items ->
    (forall k, In k (dict_keys items) -> ~ In k (dict_keys embs0)) ->
    for_each items (speaker_step world) (embs0, tr0) =
    Ok (embs0 ++ fingerprints world items,
        tr0 ++ flat_map (fun it => speaker_events world (fst it) (snd it))
                 items).
Proof.
  intros Hdim.
  induction items as [|[speaker_id segments] items IH];
    intros embs0 tr0 Hwf Hfresh.
  - simpl. now rewrite !app_nil_r.
  - apply NoDup_cons_iff in Hwf. destruct Hwf as [Hnotin Hwf].
    cbn [for_each]. rewrite (speaker_step_spec world D) by assumption.
    cbn [bind]. rewrite IH; auto.
    + unfold fingerprints. cbn [flat_map fst snd].
      destruct (fingerprint_of (speaker_vectors world speaker_id segments)).
      * rewrite dict_set_fresh by (apply Hfresh; now left).
        now rewrite <- !app_assoc.
      * now rewrite <- !app_assoc.
    + intros k Hk.
      destruct (fingerprint_of (speaker_vectors world speaker_id segments)).
      * rewrite dict_set_fresh by (apply Hfresh; now left).
        unfold dict_keys. rewrite map_app, in_app_iff.
        intros [H|[H|[]]].
        -- apply (Hfresh k); [now right | exact H].
        -- simpl in H. subst k. contradiction.
      * apply Hfresh. now right.
Qed.

Lemma create_speaker_embeddings_list (D : nat) (words : list Word) :
  world_dim world D ->
  create_speaker_embeddings world words =
  Ok (fingerprints world (group_words words),
      [EvCreating; EvFound (length (group_words words))]
      ++ flat_map (fun it => speaker_events world (fst it) (snd it))
           (group_words words)).
Proof.
  intros Hdim. unfold create_speaker_embeddings.
  rewrite (for_each_speaker_step_list D Hdim); auto.
  apply group_words_wf.
Qed.

Lemma fingerprints_keys (words : list Word) :
  dict_keys (fingerprints world (group_words words)) =
  filter (has_vectors world words) (dict_keys (group_words words)).
Proof.
  assert (Hgroups : forall s segs, In (s, segs) (group_words words) ->
                      segs = speaker_spans words s)
    by (intros s segs H; now apply group_words_groups).
  revert Hgroups. generalize (group_words words). intros items Hitems.
  induction items as [|[s segs] items IH]; [reflexivity|].
  unfold fingerprints. cbn [flat_map fst snd dict_keys map filter].
  unfold dict_keys in IH. unfold fingerprints in IH.
  rewrite map_app, IH by (intros; apply Hitems; now right).
  unfold has_vectors at 2.
  rewrite <- (Hitems s segs (or_introl eq_refl)).
  now destruct (speaker_vectors world s segs).
Qed.

(** The fingerprint map lists the speakers for which vectors were
    collected in the order in which the speakers first occur in the word
    list. *)
Theorem fingerprints_in_order_of_appearance (D : nat) (words : list Word) :
  world_dim world D ->
  exists embs trace,
    create_speaker_embeddings world words = Ok (embs, trace) /\
    dict_keys embs =
    filter (has_vectors world words)
      (first_seen (map speaker_of (filter known words))).
Proof.
  intros Hdim. eexists _, _. split.
  - apply (create_speaker_embeddings_list D words Hdim).
  - rewrite fingerprints_keys. now rewrite group_words_first_seen.
Qed.

(** The fingerprint of a speaker, the extractor calls made for it and the
    count reported for it depend on the words of that speaker only: two word
    lists that agree on the speaker's words give the same. *)
Theorem speaker_isolation (D : nat) (words1 words2 : list Word) (s : string) :
  world_dim world D ->
  speaker_spans words1 s = speaker_spans words2 s ->
  exists embs1 trace1 embs2 trace2,
    create_speaker_embeddings world words1 = Ok (embs1, trace1) /\
    create_speaker_embeddings world words2 = Ok (embs2, trace2) /\
    dict_get embs1 s = dict_get embs2 s /\
    filter (is_extract_of s) trace1 = filter (is_extract_of s) trace2 /\
    filter (is_created_of s) trace1 = filter (is_created_of s) trace2.
Proof.
  intros Hdim Hsame.
  destruct (create_speaker_embeddings_spec world D words1 Hdim)
    as (embs1 & Hrun1 & _ & Hget1).
  destruct (create_speaker_embeddings_spec world D words2 Hdim)
    as (embs2 & Hrun2 & _ & Hget2).
  eexists embs1, _, embs2, _.
  split; [exact Hrun1|]. split; [exact Hrun2|]. split; [|split].
  - now rewrite Hget1, Hget2, Hsame.
  - now rewrite !run_extract_events, Hsame.
  - now rewrite !run_created_events, Hsame.
Qed.

End RunProps.

(** ** More on the matcher *)

Lemma SF_eqb_refl_false (a : spec_float) :
  SFeqb a a = false -> a = S754_nan.
Proof.
  unfold SFeqb. destruct a as [s|s| |s m e]; simpl; try discriminate; auto.
  - destruct s; discriminate.
  - change (PosDef.Pos.compare_cont Eq) with Pos.compare.
    rewrite Z.compare_refl, Pos.compare_refl. destruct s; discriminate.
Qed.

Lemma float_nan_SF (x : float) :
  PrimFloat.is_nan x = true -> Prim2SF x = S754_nan.
Proof.
  unfold PrimFloat.is_nan. rewrite FloatAxioms.eqb_spec. intros H.
  apply SF_eqb_refl_false. now destruct (SFeqb (Prim2SF x) (Prim2SF x)).
Qed.

Lemma float_nan_ltb_l (x y : float) :
  PrimFloat.is_nan x = true -> (x <? y)%float = false.
Proof.
  intros H. rewrite FloatAxioms.ltb_spec, (float_nan_SF x H). reflexivity.
Qed.

Lemma float_nan_ltb_r (x y : float) :
  PrimFloat.is_nan y = true -> (x <? y)%float = false.
Proof.
  intros H. rewrite FloatAxioms.ltb_spec, (float_nan_SF y H).
  unfold SFltb. now destruct (Prim2SF x).
Qed.

Lemma float_nan_leb_l (x y : float) :
  PrimFloat.is_nan x = true -> (x <=? y)%float = false.
Proof.
  intros H. rewrite FloatAxioms.leb_spec, (float_nan_SF x H). reflexivity.
Qed.

Lemma float_nan_leb_r (x y : float) :
  PrimFloat.is_nan y = true -> (x <=? y)%float = false.
Proof.
  intros H. rewrite FloatAxioms.leb_spec, (float_nan_SF y H).
  unfold SFleb. now destruct (Prim2SF x).
Qed.

Lemma max_from_In (rest : dict float) :
  forall best, In (max_from best rest) (best :: rest).
Proof.
  induction rest as [|x rest IH]; intros best; simpl; auto.
  destruct (snd best <? snd x)%float.
  - right. apply IH.
  - destruct (IH best) as [H|H]; auto.
Qed.

Lemma max_from_nan_first (rest : dict float) (best : string * float) :
  PrimFloat.is_nan (snd best) = true -> max_from best rest = best.
Proof.
  intros Hnan. induction rest as [|x rest IH]; simpl; auto.
  now rewrite float_nan_ltb_l.
Qed.

Lemma max_from_skips_nan (rest : dict float) :
  forall best,
    max_from best rest =
    max_from best
      (filter (fun kv => negb (PrimFloat.is_nan (snd kv))) rest).
Proof.
  induction rest as [|x rest IH]; intros best; simpl; auto.
  destruct (PrimFloat.is_nan (snd x)) eqn:E; simpl.
  - rewrite float_nan_ltb_r by assumption. apply IH.
  - destruct (snd best <? snd x)%float; apply IH.
Qed.

Lemma find_best_matches_loop_list (threshold : float) :
  forall (items : dict (dict float)) (matches0 : dict Match),
    dict_wf items ->
    Forall (fun kr => snd kr <> []) items ->
    (forall k, In k (dict_keys items) -> ~ In k (dict_keys matches0)) ->
    for_each items (match_step threshold) matches0 =
    Ok (matches0 ++ accepted_matches threshold items).
Proof.
  induction items as [|[speaker scores] items IH];
    intros matches0 Hwf Hne Hfresh.
  - simpl. now rewrite app_nil_r.
  - apply NoDup_cons_iff in Hwf. destruct Hwf as [Hnotin Hwf].
    pose proof (Forall_inv Hne) as Hs. simpl in Hs.
    pose proof (Forall_inv_tail Hne) as Hne'.
    destruct scores as [|x rest]; [congruence|].
    cbn [for_each match_step py_max_score bind].
    unfold accepted_matches. cbn [flat_map fst snd row_match].
    destruct (threshold <=? snd (max_from x rest))%float.
    + cbn [bind]. rewrite dict_set_fresh by (apply Hfresh; now left).
      rewrite IH; auto.
      * unfold accepted_matches. now rewrite <- !app_assoc.
      * intros k Hk. unfold dict_keys. rewrite map_app, in_app_iff.
        intros [H|[H|[]]].
        -- apply (Hfresh k); [now right | exact H].
        -- simpl in H. subst k. contradiction.
    + cbn [bind]. rewrite IH; auto.
      intros k Hk. apply Hfresh. now right.
Qed.

Lemma find_best_matches_list (similarities : dict (dict float))
    (threshold : float) :
  dict_wf similarities ->
  Forall (fun kr => snd kr <> []) similarities ->
  find_best_matches similarities threshold =
  Ok (accepted_matches threshold similarities).
Proof.
  intros Hwf Hne. unfold find_best_matches.
  rewrite find_best_matches_loop_list; auto.
Qed.

Lemma accepted_matches_In (threshold : float)
    (similarities : dict (dict float)) (s : string) (m : Match) :
  In (s, m) (accepted_matches threshold similarities) ->
  method m = "voice_embedding" /\
  (threshold <=? confidence m)%float = true /\
  exists row,
    In (s, row) similarities /\ In (character m, confidence m) row.
Proof.
  intros Hin. unfold accepted_matches in Hin.
  apply in_flat_map in Hin. destruct Hin as ([s' row] & Hrow & Hm).
  cbn [fst snd] in Hm.
  destruct row as [|x rest]; [contradiction|]. cbn [row_match] in Hm.
  destruct (threshold <=? snd (max_from x rest))%float eqn:E;
    [|contradiction].
  destruct Hm as [[= <- <-]|[]]. cbn [method confidence character].
  split; [reflexivity|]. split; [exact E|].
  exists (x :: rest). split; [exact Hrow|].
  rewrite <- surjective_pairing. apply max_from_In.
Qed.

(** On a table without empty rows the match map lists the accepted
    candidates in the order of the table; every match has the method
    "voice_embedding", a confidence that reaches the threshold, and as
    character a reference of the candidate's own row with that score. *)
Theorem find_best_matches_in_table_order
    (similarities : dict (dict float)) (threshold : float) :
  dict_wf similarities ->
  Forall (fun kr => snd kr <> []) similarities ->
  exists matches,
    find_best_matches similarities threshold = Ok matches /\
    dict_keys matches = dict_keys (filter (accepted threshold) similarities) /\
    forall s m,
      In (s, m) matches ->
      method m = "voice_embedding" /\
      (threshold <=? confidence m)%float = true /\
      exists row,
        In (s, row) similarities /\ In (character m, confidence m) row.
Proof.
  intros Hwf Hne. exists (accepted_matches threshold similarities).
  split; [now apply find_best_matches_list|]. split.
  - clear. unfold accepted_matches, accepted.
    induction similarities as [|[s row] sims IH]; [reflexivity|].
    cbn [flat_map filter fst snd]. unfold dict_keys in *.
    rewrite map_app, IH.
    now destruct (row_match threshold row).
  - intros s m. apply accepted_matches_In.
Qed.

(** Lowering the threshold keeps every match as it is: a candidate matched
    at the higher threshold has the same match at the lower one. *)
Theorem find_best_matches_threshold_monotone
    (similarities : dict (dict float)) (low high : float) :
  dict_wf similarities ->
  Forall (fun kr => snd kr <> []) similarities ->
  (low <=? high)%float = true ->
  exists matches_low matches_high,
    find_best_matches similarities low = Ok matches_low /\
    find_best_matches similarities high = Ok matches_high /\
    forall s m,
      dict_get matches_high s = Some m -> dict_get matches_low s = Some m.
Proof.
  intros Hwf Hne Hle.
  destruct (find_best_matches_lookup similarities low Hwf Hne)
    as (ml & Hl & Hgl).
  destruct (find_best_matches_lookup similarities high Hwf Hne)
    as (mh & Hh & Hgh).
  exists ml, mh. split; [exact Hl|]. split; [exact Hh|].
  intros s m. rewrite Hgl, Hgh.
  destruct (dict_get similarities s) as [[|x rest]|]; try discriminate.
  cbn [row_match].
  destruct (high <=? snd (max_from x rest))%float eqn:E; [|discriminate].
  now rewrite (float_le_trans _ _ _ Hle E).
Qed.

(** NaN scores and thresholds.  A candidate whose row begins with a NaN
    score gets no match, whatever the other scores of the row are; a NaN
    score in any later position is passed over by [max]; and a NaN threshold
    accepts nothing. *)
Theorem find_best_matches_nan
    (similarities : dict (dict float)) (threshold : float) :
  dict_wf similarities ->
  Forall (fun kr => snd kr <> []) similarities ->
  exists matches,
    find_best_matches similarities threshold = Ok matches /\
    (forall s k x rest,
       In (s, (k, x) :: rest) similarities ->
       PrimFloat.is_nan x = true ->
       dict_get matches s = None) /\
    (forall first rest,
       py_max_score (first :: rest) =
       py_max_score
         (first :: filter (fun kv => negb (PrimFloat.is_nan (snd kv))) rest)) /\
    (PrimFloat.is_nan threshold = true -> matches = []).
Proof.
  intros Hwf Hne.
  destruct (find_best_matches_lookup similarities threshold Hwf Hne)
    as (matches & Hrun & Hget).
  exists matches. split; [exact Hrun|]. split; [|split].
  - intros s k x rest Hin Hnan.
    rewrite Hget, (dict_In_get _ _ _ Hwf Hin). cbn [row_match].
    rewrite max_from_nan_first by exact Hnan. cbn [snd].
    now rewrite float_nan_leb_r.
  - intros first rest. cbn [py_max_score]. f_equal. apply max_from_skips_nan.
  - intros Hnan. rewrite find_best_matches_list in Hrun by assumption.
    injection Hrun as <-. clear - Hnan.
    unfold accepted_matches.
    induction similarities as [|[s row] sims IH]; [reflexivity|].
    cbn [flat_map fst snd]. rewrite IH.
    destruct row as [|x rest]; [reflexivity|]. cbn [row_match].
    now rewrite float_nan_leb_l.
Qed.

(** ** More on the scorer *)

Section ScorerMore.
Context {F : Type} {AF : Arith F} {DK : DotKernel F}.

Lemma cosine_similarity_mismatch (a b : list F) :
  length a <> length b ->
  cosine_similarity a b = Raise (ValueError "shapes not aligned").
Proof.
  intros H. unfold cosine_similarity, np_dot.
  apply Nat.eqb_neq in H. now rewrite H.
Qed.

Lemma cosine_similarity_cases (a b : list F) :
  cosine_similarity a b = Ok (cosine a b) \/
  cosine_similarity a b = Raise (ValueError "shapes not aligned").
Proof.
  destruct (Nat.eq_dec (length a) (length b)).
  - left. now apply cosine_similarity_ok.
  - right. now apply cosine_similarity_mismatch.
Qed.

Lemma compare_inner_cases (speaker1 : string) (emb1 : list F)
    (items2 : dict (list F)) :
  forall similarities,
    (exists r, for_each items2 (compare_inner speaker1 emb1) similarities = Ok r) \/
    for_each items2 (compare_inner speaker1 emb1) similarities =
    Raise (ValueError "shapes not aligned").
Proof.
  induction items2 as [|[s2 b] items2 IH]; intros similarities.
  - left. now exists similarities.
  - cbn [for_each compare_inner].
    destruct (cosine_similarity_cases emb1 b) as [H|H]; rewrite H; cbn [bind].
    + apply IH.
    + now right.
Qed.

Lemma compare_inner_raises (speaker1 : string) (emb1 : list F)
    (items2 : dict (list F)) :
  forall similarities,
    (exists s2 b, In (s2, b) items2 /\ length emb1 <> length b) ->
    for_each items2 (compare_inner speaker1 emb1) similarities =
    Raise (ValueError "shapes not aligned").
Proof.
  induction items2 as [|[s2' b'] items2 IH];
    intros similarities (s2 & b & Hin & Hlen).
  - contradiction.
  - cbn [for_each compare_inner].
    destruct (cosine_similarity_cases emb1 b') as [H|H]; rewrite H; cbn [bind].
    + apply IH. destruct Hin as [[= -> ->]|Hin].
      * rewrite cosine_similarity_mismatch in H by assumption. discriminate.
      * now exists s2, b.
    + reflexivity.
Qed.

Lemma compare_speakers_mismatch_raises
    (embeddings1 embeddings2 : dict (list F))
    (s1 s2 : string) (a b : list F) :
  In (s1, a) embeddings1 -> In (s2, b) embeddings2 ->
  length a <> length b ->
  compare_speakers embeddings1 embeddings2 =
  Raise (ValueError "shapes not aligned").
Proof.
  intros H1 H2 Hlen. unfold compare_speakers.
  generalize (@nil (string * dict F)).
  induction embeddings1 as [|[s1' a'] items1 IH]; intros similarities.
  - contradiction.
  - cbn [for_each compare_outer].
    destruct H1 as [[= -> ->]|H1].
    + rewrite compare_inner_raises; [reflexivity|]. now exists s2, b.
    + destruct (compare_inner_cases s1' a' embeddings2
                  (dict_set similarities s1' [])) as [[r Hr]|Hr];
        rewrite Hr; cbn [bind]; auto.
Qed.

(** [compare_speakers] raises [ValueError] as soon as one candidate vector
    and one reference vector differ in length, and then returns no table at
    all, not even the rows of the pairs that agree. *)
Theorem compare_speakers_dimension_mismatch
    (embeddings1 embeddings2 : dict (list F))
    (s1 s2 : string) (a b : list F) :
  In (s1, a) embeddings1 -> In (s2, b) embeddings2 ->
  length a <> length b ->
  compare_speakers embeddings1 embeddings2 =
  Raise (ValueError "shapes not aligned").
Proof. apply compare_speakers_mismatch_raises. Qed.

Lemma compare_outer_no_reference (items1 : dict (list F)) :
  forall similarities : dict (dict F),
    dict_wf items1 ->
    (forall k, In k (dict_keys items1) -> ~ In k (dict_keys similarities)) ->
    for_each items1 (compare_outer []) similarities =
    Ok (similarities ++ map (fun kv => (fst kv, [])) items1).
Proof.
  induction items1 as [|[s1 a] items1 IH]; intros similarities Hwf Hfresh.
  - simpl. now rewrite app_nil_r.
  - apply NoDup_cons_iff in Hwf. destruct Hwf as [Hnotin Hwf].
    cbn [for_each compare_outer bind].
    rewrite dict_set_fresh by (apply Hfresh; now left).
    rewrite IH; auto.
    + cbn [map fst]. now rewrite <- app_assoc.
    + intros k Hk. unfold dict_keys. rewrite map_app, in_app_iff.
      intros [H|[H|[]]].
      * apply (Hfresh k); [now right | exact H].
      * simpl in H. subst k. contradiction.
Qed.

Lemma compare_speakers_no_reference (embeddings1 : dict (list F)) :
  dict_wf embeddings1 ->
  compare_speakers embeddings1 [] =
  Ok (map (fun kv => (fst kv, [])) embeddings1).
Proof.
  intros Hwf. unfold compare_speakers.
  rewrite compare_outer_no_reference; auto.
Qed.

End ScorerMore.

(** ** The entry point *)

Section MainProps.
Context {F : Type} {AF : Arith F} {DK : DotKernel float}.
Variable env : Environment F.

(** The fingerprints as [main] holds them, as Python floats. *)
Lemma fingerprints_dim (D : nat) (world : World F)
    (items : dict (list Segment)) :
  world_dim world D -> all_dim D (fingerprints world items).
Proof.
  intros Hdim. unfold all_dim, fingerprints. apply Forall_forall.
  intros [s fp] Hin. apply in_flat_map in Hin.
  destruct Hin as ([s' segs] & _ & Hfp). cbn [fst snd] in *.
  destruct (speaker_vectors world s' segs) as [|v rest] eqn:Ev;
    [contradiction|].
  cbn [fingerprint_of] in Hfp. destruct Hfp as [[= _ <-]|[]].
  assert (Hall : Forall (fun w => length w = D) (v :: rest)).
  { rewrite <- Ev. now apply collected_dim. }
  now destruct (mean_rows_is_mean D v rest Hall).
Qed.

Lemma run_as_floats (D : nat) (video_path : string) (words : list Word) :
  world_dim (worlds env video_path) D ->
  exists embs trace,
    create_speaker_embeddings (worlds env video_path) words = Ok (embs, trace) /\
    dict_wf (map (fun kv => (fst kv, map (tolist env) (snd kv))) embs) /\
    all_dim D (map (fun kv => (fst kv, map (tolist env) (snd kv))) embs) /\
    forall s,
      In s (dict_keys (map (fun kv => (fst kv, map (tolist env) (snd kv))) embs))
      <-> s <> UNKNOWN /\ has_vectors (worlds env video_path) words s = true.
Proof.
  intros Hdim.
  destruct (create_speaker_embeddings_spec (worlds env video_path) D words Hdim)
    as (embs & Hrun & Hwf & Hget).
  pose proof (create_speaker_embeddings_list (worlds env video_path) D words Hdim)
    as Hlist.
  rewrite Hrun in Hlist. injection Hlist as Hembs.
  eexists embs, _. split; [exact Hrun|]. split; [|split].
  - unfold dict_wf. now rewrite (dict_keys_map (map (tolist env))).
  - pose proof (fingerprints_dim D (worlds env video_path)
                  (group_words words) Hdim) as Hd.
    rewrite <- Hembs in Hd. unfold all_dim in *.
    rewrite Forall_forall in *. intros kv Hkv.
    apply in_map_iff in Hkv. destruct Hkv as (kv' & <- & Hkv').
    cbn [snd]. rewrite length_map. now apply Hd.
  - intros s. rewrite (dict_keys_map (map (tolist env))).
    pose proof (dict_get_None embs s) as Hnone. rewrite Hget in Hnone.
    unfold has_vectors.
    destruct (String.eqb s UNKNOWN) eqn:E.
    + apply String.eqb_eq in E. split; [|tauto].
      intros Hin. exfalso. now apply (proj1 Hnone).
    + apply String.eqb_neq in E.
      destruct (speaker_vectors (worlds env video_path) s (speaker_spans words s));
        cbn [fingerprint_of] in Hnone.
      * split; [|intros [_ H]; discriminate].
        intros Hin. exfalso. now apply (proj1 Hnone).
      * split; [tauto|]. intros _.
        destruct (in_dec string_dec s (dict_keys embs)) as [|n]; auto.
        apply Hnone in n. discriminate.
Qed.

Lemma main_unfold (prog video dj : string)
    (more : list string) (words : list Word)
    (embs : dict (list F)) (trace : list Event) :
  read_words env dj = Some words ->
  create_speaker_embeddings (worlds env video) words = Ok (embs, trace) ->
  forall path, path <> "" ->
  main env (prog :: video :: dj :: path :: more) =
  let speaker_embeddings :=
    map (fun kv => (fst kv, map (tolist env) (snd kv))) embs in
  match read_reference env path with
  | Missing =>
      Printed (mkWorkerResult speaker_embeddings (length speaker_embeddings)
                 None None)
  | Unreadable => Crashed (CannotRead path)
  | Loaded reference_embeddings =>
      match compare_and_match speaker_embeddings reference_embeddings with
      | Raise e => Crashed (Uncaught e)
      | Ok (similarities, matches) =>
          Printed (mkWorkerResult speaker_embeddings
                     (length speaker_embeddings)
                     (Some similarities) (Some matches))
      end
  end.
Proof.
  intros Hwords Hrun path Hpath. unfold main. rewrite Hwords, Hrun.
  destruct path as [|ch path']; [contradiction|]. reflexivity.
Qed.

(** A run of [main] with a readable, non-empty reference set of the
    encoder's dimension prints a result: the speaker count is the number of
    fingerprints, the fingerprints are those of the known speakers with
    vectors, the similarity table has a row per fingerprint and a column per
    reference, and every match belongs to a fingerprinted speaker, names a
    reference voice and has a confidence of at least 0.75. *)
Theorem main_with_reference (D : nat) (prog video dj path : string)
    (more : list string) (words : list Word)
    (reference_embeddings : dict (list float)) :
  path <> "" ->
  read_words env dj = Some words ->
  read_reference env path = Loaded reference_embeddings ->
  world_dim (worlds env video) D ->
  dict_wf reference_embeddings ->
  all_dim D reference_embeddings ->
  reference_embeddings <> [] ->
  exists speaker_embeddings similarities matches,
    main env (prog :: video :: dj :: path :: more) =
    Printed (mkWorkerResult speaker_embeddings (length speaker_embeddings)
               (Some similarities) (Some matches)) /\
    (forall s,
       In s (dict_keys speaker_embeddings) <->
       s <> UNKNOWN /\ has_vectors (worlds env video) words s = true) /\
    dict_keys similarities = dict_keys speaker_embeddings /\
    (forall s row,
       In (s, row) similarities ->
       dict_keys row = dict_keys reference_embeddings) /\
    (forall s m,
       In (s, m) matches ->
       In s (dict_keys speaker_embeddings) /\
       In (character m) (dict_keys reference_embeddings) /\
       (0.75 <=? confidence m)%float = true).
Proof.
  intros Hpath Hwords Href Hdim Hwf2 Hd2 Hne.
  destruct (run_as_floats D video words Hdim)
    as (embs & trace & Hrun & Hwf1 & Hd1 & Hkeys).
  set (se := map (fun kv => (fst kv, map (tolist env) (snd kv))) embs) in *.
  assert (Hrowkeys : forall s row,
            In (s, row) (expected_table se reference_embeddings) ->
            dict_keys row = dict_keys reference_embeddings).
  { intros s row Hin. unfold expected_table in Hin.
    apply in_map_iff in Hin. destruct Hin as (kv & [= _ <-] & _).
    apply (dict_keys_map (cosine (snd kv))). }
  assert (Htkeys : dict_keys (expected_table se reference_embeddings) =
                   dict_keys se)
    by apply (dict_keys_map (fun emb => expected_row emb reference_embeddings)).
  exists se, (expected_table se reference_embeddings),
    (accepted_matches default_threshold
       (expected_table se reference_embeddings)).
  split; [|split; [exact Hkeys | split; [exact Htkeys | split; [exact Hrowkeys|]]]].
  - rewrite (main_unfold prog video dj more words embs trace Hwords Hrun
               path Hpath).
    cbn zeta. fold se. rewrite Href. unfold compare_and_match.
    rewrite (compare_speakers_expected D) by assumption. cbn [bind].
    rewrite find_best_matches_list; [reflexivity| |].
    + unfold dict_wf. now rewrite Htkeys.
    + apply Forall_forall. intros [s row] Hin. cbn [snd].
      specialize (Hrowkeys s row Hin). intros ->.
      destruct reference_embeddings; [congruence | discriminate].
  - intros s m Hin. apply accepted_matches_In in Hin.
    destruct Hin as (_ & Hthr & row & Hrow & Hchar).
    split; [|split; [|exact Hthr]].
    + rewrite <- Htkeys. unfold dict_keys.
      change s with (fst (s, row)). now apply in_map.
    + rewrite <- (Hrowkeys s row Hrow). unfold dict_keys.
      change (character m) with (fst (character m, confidence m)).
      now apply in_map.
Qed.

(** With a reference file that holds an empty set, [main] ends in an
    uncaught [ValueError] as soon as one speaker was fingerprinted: nothing
    is printed, the fingerprints included. *)
Theorem main_empty_reference_crashes (D : nat) (prog video dj path : string)
    (more : list string) (words : list Word) (s : string) :
  path <> "" ->
  read_words env dj = Some words ->
  read_reference env path = Loaded [] ->
  world_dim (worlds env video) D ->
  s <> UNKNOWN ->
  has_vectors (worlds env video) words s = true ->
  main env (prog :: video :: dj :: path :: more) =
  Crashed (Uncaught (ValueError "max() iterable argument is empty")).
Proof.
  intros Hpath Hwords Href Hdim Hs Hvec.
  destruct (run_as_floats D video words Hdim)
    as (embs & trace & Hrun & Hwf1 & _ & Hkeys).
  rewrite (main_unfold prog video dj more words embs trace Hwords Hrun
             path Hpath).
  cbn zeta. rewrite Href. unfold compare_and_match.
  rewrite compare_speakers_no_reference by assumption. cbn [bind].
  unfold find_best_matches.
  rewrite (for_each_match_step_empty_row default_threshold _ [] s);
    [reflexivity|].
  assert (Hin : In s (dict_keys (map (fun kv => (fst kv, map (tolist env) (snd kv)))
                                   embs)))
    by (apply Hkeys; auto).
  unfold dict_keys in Hin. apply in_map_iff in Hin.
  destruct Hin as (kv & <- & Hkv).
  apply in_map_iff. now exists kv.
Qed.

(** With a reference vector whose length is not the encoder's dimension,
    [main] ends in an uncaught [ValueError] as soon as one speaker was
    fingerprinted. *)
Theorem main_dimension_mismatch_crashes (D : nat)
    (prog video dj path : string) (more : list string) (words : list Word)
    (reference_embeddings : dict (list float)) (s s2 : string)
    (b : list float) :
  path <> "" ->
  read_words env dj = Some words ->
  read_reference env path = Loaded reference_embeddings ->
  world_dim (worlds env video) D ->
  s <> UNKNOWN ->
  has_vectors (worlds env video) words s = true ->
  In (s2, b) reference_embeddings ->
  length b <> D ->
  main env (prog :: video :: dj :: path :: more) =
  Crashed (Uncaught (ValueError "shapes not aligned")).
Proof.
  intros Hpath Hwords Href Hdim Hs Hvec Hb Hlen.
  destruct (run_as_floats D video words Hdim)
    as (embs & trace & Hrun & Hwf1 & Hd1 & Hkeys).
  rewrite (main_unfold prog video dj more words embs trace Hwords Hrun
             path Hpath).
  cbn zeta. rewrite Href. unfold compare_and_match.
  assert (Hin : In s (dict_keys (map (fun kv => (fst kv, map (tolist env) (snd kv)))
                                   embs)))
    by (apply Hkeys; auto).
  unfold dict_keys in Hin. apply in_map_iff in Hin.
  destruct Hin as ([s' fp] & Hfst & Hkv). cbn [fst] in Hfst. subst s'.
  rewrite (compare_speakers_mismatch_raises _ _ s s2 fp b Hkv Hb);
    [reflexivity|].
  unfold all_dim in Hd1. rewrite Forall_forall in Hd1.
  specialize (Hd1 _ Hkv). cbn [snd] in Hd1. congruence.
Qed.

End MainProps.

(** ** What the run reports *)

Section ReportProps.
Context {F : Type} {AF : Arith F}.
Variable world : World F.

Lemma filter_error_step_events (speaker_id s' : string)
    (items : list (nat * Segment)) :
  filter (is_error_of speaker_id) (flat_map (step_events world s') items) =
  if String.eqb speaker_id s' then encode_errors world s' items else [].
Proof.
  unfold encode_errors. induction items as [|item items IH].
  - simpl. now destruct (String.eqb speaker_id s').
  - cbn [flat_map]. rewrite filter_app, IH.
    unfold step_events, extract_event. cbn [filter is_error_of].
    destruct (String.eqb speaker_id s') eqn:E;
      destruct (world s' (fst item) (snd item)); cbn [filter is_error_of app];
      rewrite ?(String.eqb_sym s' speaker_id), ?E; reflexivity.
Qed.

Lemma filter_error_speaker_events (speaker_id s' : string)
    (segments : list Segment) :
  filter (is_error_of speaker_id) (speaker_events world s' segments) =
  if String.eqb speaker_id s'
  then encode_errors world speaker_id (enumerate (utterances segments))
  else [].
Proof.
  unfold speaker_events, utterances.
  destruct (merge_segments (firstn max_sample_segments segments)) as [|m ms].
  - simpl. now destruct (String.eqb speaker_id s').
  - rewrite filter_app, filter_error_step_events.
    replace (filter (is_error_of speaker_id) _) with (@nil Event).
    + rewrite app_nil_r. destruct (String.eqb speaker_id s') eqn:E; auto.
      apply String.eqb_eq in E. now subst.
    + now destruct (speaker_vectors world s' segments).
Qed.

(** The run writes an error line for exactly those utterances whose
    encoding raises; a failed extraction or an empty waveform leaves no
    line. *)
Theorem only_encoder_errors_are_reported (D : nat) (words : list Word) :
  world_dim world D ->
  exists embs trace,
    create_speaker_embeddings world words = Ok (embs, trace) /\
    forall s,
      s <> UNKNOWN ->
      filter (is_error_of s) trace =
      encode_errors world s (enumerate (utterances (speaker_spans words s))).
Proof.
  intros Hdim.
  destruct (create_speaker_embeddings_spec world D words Hdim)
    as (embs & Hrun & _ & _).
  eexists embs, _. split; [exact Hrun|].
  intros s Hs. apply String.eqb_neq in Hs.
  cbn [app filter is_error_of].
  rewrite (filter_speaker_trace world _ s _ (filter_error_speaker_events s))
    by apply group_words_wf.
  rewrite group_words_get, Hs.
  now destruct (speaker_spans words s).
Qed.

End ReportProps.

(** ** The properties at sample inputs *)

(** A span that lies inside the span before it pulls the end of the
    utterance back: [0,1000) and [100,200) merge into [0,200), which is too
    short to be kept. *)
Lemma merge_segments_chain_witness :
  StronglySorted start_le [mkSegment 0 1000 "a"; mkSegment 100 200 "b"] /\
  Sorted gap_small [mkSegment 0 1000 "a"; mkSegment 100 200 "b"] /\
  merge_segments [mkSegment 0 1000 "a"; mkSegment 100 200 "b"] =
  if long_enough (chain_utterance (mkSegment 0 1000 "a") [mkSegment 100 200 "b"])
  then [chain_utterance (mkSegment 0 1000 "a") [mkSegment 100 200 "b"]]
  else [].
Proof.
  assert (H1 : StronglySorted start_le
                 [mkSegment 0 1000 "a"; mkSegment 100 200 "b"]).
  { repeat constructor; unfold start_le; simpl; lia. }
  assert (H2 : Sorted gap_small [mkSegment 0 1000 "a"; mkSegment 100 200 "b"]).
  { repeat constructor; unfold gap_small, gap_merge_threshold_ms; simpl; lia. }
  split; [exact H1|]. split; [exact H2|].
  exact (merge_segments_chain _ _ H1 H2).
Defined.

Example merge_contained_span :
  merge_segments [mkSegment 0 1000 "a"] = [mkSegment 0 1000 "a"] /\
  merge_segments [mkSegment 0 1000 "a"; mkSegment 100 200 "b"] = [].
Proof. split; reflexivity. Qed.

Lemma merge_segments_order_independent_witness :
  Permutation (spec_spans "a" "b" "c")
    [mkSegment 2000 2200 "c"; mkSegment 0 400 "a"; mkSegment 450 900 "b"] /\
  NoDup (map seg_start (spec_spans "a" "b" "c")) /\
  merge_segments (spec_spans "a" "b" "c") =
  merge_segments
    [mkSegment 2000 2200 "c"; mkSegment 0 400 "a"; mkSegment 450 900 "b"].
Proof.
  assert (H1 : Permutation (spec_spans "a" "b" "c")
                 [mkSegment 2000 2200 "c"; mkSegment 0 400 "a";
                  mkSegment 450 900 "b"]).
  { unfold spec_spans.
    apply Permutation_sym.
    change (Permutation
              (mkSegment 2000 2200 "c"
               :: [mkSegment 0 400 "a"; mkSegment 450 900 "b"])
              ([mkSegment 0 400 "a"; mkSegment 450 900 "b"]
               ++ [mkSegment 2000 2200 "c"])).
    apply Permutation_cons_append. }
  assert (H2 : NoDup (map seg_start (spec_spans "a" "b" "c"))).
  { simpl. repeat constructor; simpl; intuition discriminate. }
  split; [exact H1|]. split; [exact H2|].
  exact (merge_segments_order_independent _ _ H1 H2).
Defined.

(** With equal start times the order of the list does matter. *)
Example merge_equal_starts :
  merge_segments [mkSegment 0 100 "a"; mkSegment 0 900 "b"] =
    [mkSegment 0 900 "a b"] /\
  merge_segments [mkSegment 0 900 "b"; mkSegment 0 100 "a"] = [].
Proof. split; reflexivity. Qed.

Lemma fingerprints_in_order_of_appearance_witness :
  world_dim clean_world 3 /\
  exists embs trace,
    create_speaker_embeddings clean_world sample_words = Ok (embs, trace) /\
    dict_keys embs =
    filter (has_vectors clean_world sample_words)
      (first_seen (map speaker_of (filter known sample_words))).
Proof.
  split; [exact clean_world_dim|].
  exact (fingerprints_in_order_of_appearance clean_world 3 sample_words
           clean_world_dim).
Defined.

Lemma speaker_isolation_witness :
  world_dim faulty_world 3 /\
  speaker_spans sample_words "S1" =
    speaker_spans (timed_word "S3" 0 2000 "z" :: sample_words) "S1" /\
  exists embs1 trace1 embs2 trace2,
    create_speaker_embeddings faulty_world sample_words = Ok (embs1, trace1) /\
    create_speaker_embeddings faulty_world
      (timed_word "S3" 0 2000 "z" :: sample_words) = Ok (embs2, trace2) /\
    dict_get embs1 "S1" = dict_get embs2 "S1" /\
    filter (is_extract_of "S1") trace1 = filter (is_extract_of "S1") trace2 /\
    filter (is_created_of "S1") trace1 = filter (is_created_of "S1") trace2.
Proof.
  split; [exact faulty_world_dim|]. split; [reflexivity|].
  exact (speaker_isolation faulty_world 3 sample_words
           (timed_word "S3" 0 2000 "z" :: sample_words) "S1"
           faulty_world_dim eq_refl).
Defined.

Lemma only_encoder_errors_are_reported_witness :
  world_dim noisy_world 3 /\
  exists embs trace,
    create_speaker_embeddings noisy_world sample_words = Ok (embs, trace) /\
    forall s,
      s <> UNKNOWN ->
      filter (is_error_of s) trace =
      encode_errors noisy_world s
        (enumerate (utterances (speaker_spans sample_words s))).
Proof.
  assert (Hdim : world_dim noisy_world 3).
  { intros s i seg e H. unfold noisy_world in H.
    destruct i as [|[|i]]; try discriminate. injection H as <-. reflexivity. }
  split; [exact Hdim|].
  exact (only_encoder_errors_are_reported noisy_world 3 sample_words Hdim).
Defined.

Example noisy_run :
  create_speaker_embeddings noisy_world sample_words =
  Ok ([("S1", [1; 0; 0]%float)],
      [EvCreating; EvFound 2;
       EvExtract "S1" 0 0 900; EvExtract "S1" 1 2000 3000;
       EvProcessingError "S1" 1; EvExtract "S1" 2 5000 6000;
       EvCreated "S1" 1; EvNoValidSegments "S2"]).
Proof. reflexivity. Qed.

Lemma nan_table_wf : dict_wf nan_table.
Proof. repeat constructor; simpl; intuition discriminate. Qed.

Lemma nan_table_rows : Forall (fun kr => snd kr <> []) nan_table.
Proof. repeat constructor; discriminate. Qed.

Lemma find_best_matches_in_table_order_witness :
  dict_wf nan_table /\
  Forall (fun kr => snd kr <> []) nan_table /\
  exists matches,
    find_best_matches nan_table default_threshold = Ok matches /\
    dict_keys matches =
      dict_keys (filter (accepted default_threshold) nan_table) /\
    forall s m,
      In (s, m) matches ->
      method m = "voice_embedding" /\
      (default_threshold <=? confidence m)%float = true /\
      exists row,
        In (s, row) nan_table /\ In (character m, confidence m) row.
Proof.
  split; [exact nan_table_wf|]. split; [exact nan_table_rows|].
  exact (find_best_matches_in_table_order nan_table default_threshold
           nan_table_wf nan_table_rows).
Defined.

Lemma find_best_matches_threshold_monotone_witness :
  dict_wf spec_table /\
  Forall (fun kr => snd kr <> []) spec_table /\
  (0.75 <=? 0.95)%float = true /\
  exists matches_low matches_high,
    find_best_matches spec_table 0.75%float = Ok matches_low /\
    find_best_matches spec_table 0.95%float = Ok matches_high /\
    forall s m,
      dict_get matches_high s = Some m -> dict_get matches_low s = Some m.
Proof.
  assert (H1 : dict_wf spec_table) by (repeat constructor; simpl; tauto).
  assert (H2 : Forall (fun kr => snd kr <> []) spec_table)
    by (repeat constructor; discriminate).
  split; [exact H1|]. split; [exact H2|]. split; [reflexivity|].
  exact (find_best_matches_threshold_monotone spec_table
           0.75%float 0.95%float H1 H2 eq_refl).
Defined.

Lemma find_best_matches_nan_witness :
  dict_wf nan_table /\
  Forall (fun kr => snd kr <> []) nan_table /\
  exists matches,
    find_best_matches nan_table default_threshold = Ok matches /\
    (forall s k x rest,
       In (s, (k, x) :: rest) nan_table ->
       PrimFloat.is_nan x = true ->
       dict_get matches s = None) /\
    (forall first rest,
       py_max_score (first :: rest) =
       py_max_score
         (first :: filter (fun kv => negb (PrimFloat.is_nan (snd kv))) rest)) /\
    (PrimFloat.is_nan default_threshold = true -> matches = []).
Proof.
  split; [exact nan_table_wf|]. split; [exact nan_table_rows|].
  exact (find_best_matches_nan nan_table default_threshold
           nan_table_wf nan_table_rows).
Defined.

(** Candidate A has the score 0.9 for Y, but its row begins with NaN. *)
Example find_best_matches_nan_table :
  find_best_matches nan_table default_threshold =
  Ok [("B", mkMatch "X" 0.8%float "voice_embedding")].
Proof. reflexivity. Qed.

Lemma compare_speakers_dimension_mismatch_witness :
  In ("S1", [3; 4]%float) sample_candidates /\
  In ("Alice", [1; 1; 1]%float) sample_references3 /\
  length [3; 4]%float <> length [1; 1; 1]%float /\
  compare_speakers (DK := loop_dot) sample_candidates sample_references3 =
  Raise (ValueError "shapes not aligned").
Proof.
  assert (H1 : In ("S1", [3; 4]%float) sample_candidates) by (now left).
  assert (H2 : In ("Alice", [1; 1; 1]%float) sample_references3) by (now left).
  assert (H3 : length [3; 4]%float <> length [1; 1; 1]%float)
    by (simpl; lia).
  split; [exact H1|]. split; [exact H2|]. split; [exact H3|].
  exact (compare_speakers_dimension_mismatch _ _ _ _ _ _ H1 H2 H3).
Defined.

Lemma sample_references3_wf : dict_wf sample_references3.
Proof. repeat constructor; simpl; intuition discriminate. Qed.

Lemma sample_references3_dim : all_dim 3 sample_references3.
Proof. repeat constructor. Qed.

Lemma voices_path : "voices.json" <> "".
Proof. discriminate. Qed.

Lemma main_with_reference_witness :
  "voices.json" <> "" /\
  read_words sample_env "words.json" = Some sample_words /\
  read_reference sample_env "voices.json" = Loaded sample_references3 /\
  world_dim (worlds sample_env "v.mp4") 3 /\
  dict_wf sample_references3 /\
  all_dim 3 sample_references3 /\
  sample_references3 <> [] /\
  exists speaker_embeddings similarities matches,
    main (DK := loop_dot) sample_env ["worker"; "v.mp4"; "words.json"; "voices.json"] =
    Printed (mkWorkerResult speaker_embeddings (length speaker_embeddings)
               (Some similarities) (Some matches)) /\
    (forall s,
       In s (dict_keys speaker_embeddings) <->
       s <> UNKNOWN /\
       has_vectors (worlds sample_env "v.mp4") sample_words s = true) /\
    dict_keys similarities = dict_keys speaker_embeddings /\
    (forall s row,
       In (s, row) similarities ->
       dict_keys row = dict_keys sample_references3) /\
    (forall s m,
       In (s, m) matches ->
       In s (dict_keys speaker_embeddings) /\
       In (character m) (dict_keys sample_references3) /\
       (0.75 <=? confidence m)%float = true).
Proof.
  assert (Hne : sample_references3 <> []) by discriminate.
  split; [exact voices_path|]. split; [reflexivity|]. split; [reflexivity|].
  split; [exact clean_world_dim|]. split; [exact sample_references3_wf|].
  split; [exact sample_references3_dim|]. split; [exact Hne|].
  exact (main_with_reference (DK := loop_dot) sample_env 3 "worker" "v.mp4" "words.json"
           "voices.json" [] sample_words sample_references3
           voices_path eq_refl eq_refl clean_world_dim
           sample_references3_wf sample_references3_dim Hne).
Defined.

(** Without a third argument, with an empty one, or with the path of no
    file, [main] prints the fingerprints alone; with too few arguments it
    exits with status 1, and a word file that cannot be read ends it. *)
Example main_other_runs :
  main (DK := loop_dot) sample_env ["worker"; "v.mp4"; "words.json"] =
    Printed (mkWorkerResult [("S1", [1 / 3; 1 / 3; 1 / 3]%float)] 1 None None) /\
  main (DK := loop_dot) sample_env ["worker"; "v.mp4"; "words.json"; ""] =
    Printed (mkWorkerResult [("S1", [1 / 3; 1 / 3; 1 / 3]%float)] 1 None None) /\
  main (DK := loop_dot) sample_env ["worker"; "v.mp4"; "words.json"; "nothing.json"] =
    Printed (mkWorkerResult [("S1", [1 / 3; 1 / 3; 1 / 3]%float)] 1 None None) /\
  main (DK := loop_dot) sample_env ["worker"; "v.mp4"] = Exited 1 /\
  main (DK := loop_dot) sample_env ["worker"; "v.mp4"; "w.json"] = Crashed (CannotRead "w.json").
Proof. repeat split. Qed.

Lemma main_empty_reference_crashes_witness :
  "empty.json" <> "" /\
  read_words sample_env "words.json" = Some sample_words /\
  read_reference sample_env "empty.json" = Loaded [] /\
  world_dim (worlds sample_env "v.mp4") 3 /\
  "S1" <> UNKNOWN /\
  has_vectors (worlds sample_env "v.mp4") sample_words "S1" = true /\
  main (DK := loop_dot) sample_env ["worker"; "v.mp4"; "words.json"; "empty.json"] =
  Crashed (Uncaught (ValueError "max() iterable argument is empty")).
Proof.
  assert (Hp : "empty.json" <> "") by discriminate.
  split; [exact Hp|]. split; [reflexivity|]. split; [reflexivity|].
  split; [exact clean_world_dim|]. split; [exact S1_not_unknown|].
  split; [reflexivity|].
  exact (main_empty_reference_crashes (DK := loop_dot) sample_env 3 "worker" "v.mp4"
           "words.json" "empty.json" [] sample_words "S1"
           Hp eq_refl eq_refl clean_world_dim S1_not_unknown eq_refl).
Defined.

Lemma main_dimension_mismatch_crashes_witness :
  "short.json" <> "" /\
  read_words sample_env "words.json" = Some sample_words /\
  read_reference sample_env "short.json" = Loaded sample_references /\
  world_dim (worlds sample_env "v.mp4") 3 /\
  "S1" <> UNKNOWN /\
  has_vectors (worlds sample_env "v.mp4") sample_words "S1" = true /\
  In ("Alice", [3; 4]%float) sample_references /\
  length [3; 4]%float <> 3 /\
  main (DK := loop_dot) sample_env ["worker"; "v.mp4"; "words.json"; "short.json"] =
  Crashed (Uncaught (ValueError "shapes not aligned")).
Proof.
  assert (Hp : "short.json" <> "") by discriminate.
  assert (Hin : In ("Alice", [3; 4]%float) sample_references) by (now left).
  assert (Hlen : length [3; 4]%float <> 3) by (simpl; lia).
  split; [exact Hp|]. split; [reflexivity|]. split; [reflexivity|].
  split; [exact clean_world_dim|]. split; [exact S1_not_unknown|].
  split; [reflexivity|]. split; [exact Hin|]. split; [exact Hlen|].
  exact (main_dimension_mismatch_crashes (DK := loop_dot) sample_env 3 "worker" "v.mp4"
           "words.json" "short.json" [] sample_words sample_references
           "S1" "Alice" [3; 4]%float
           Hp eq_refl eq_refl clean_world_dim S1_not_unknown eq_refl
           Hin Hlen).
Defined.
